(** * Quickfort [qfconvert/keystroker.py]: keystroke planning and serialisation

    A shallow embedding of [keystroker.py] (Python 2) and the properties
    its specification states about it.  Keycodes are Python strings and
    are kept as [string]; grid coordinates are Python integers and are
    kept as [Z]; Python lists are [list]; dictionaries keyed by strings
    are [gmap string _].  Loops that the interpreter may never leave are
    run with an explicit iteration budget. *)

From Stdlib Require Import ZArith Lia Ascii String List.
From stdpp Require Import base option list strings pretty gmap.

Local Open Scope Z_scope.

(** String concatenation unfolds on a literal or a known first character. *)
#[local] Arguments String.append !_ _ / : simpl nomatch.

(** ** Outcomes of running Python code *)

(** The exceptions the module can raise.  [Fatal msg] is the bare
    [raise Exception, msg] of the source. *)
Inductive exn : Type :=
  | IndexError
  | KeyError (k : string)
  | AttributeError (name : string)
  | ValueError (msg : string)
  | Fatal (msg : string).

(** A computation returns a value, raises, or is still running when its
    iteration budget is used up. *)
Inductive res (A : Type) : Type :=
  | Ret (a : A)
  | Raise (e : exn)
  | Timeout.
Arguments Ret {A} a.
Arguments Raise {A} e.
Arguments Timeout {A}.

#[global] Instance res_ret : MRet res := fun A a => Ret a.

#[global] Instance res_bind : MBind res := fun A B f m =>
  match m with
  | Ret a => f a
  | Raise e => Raise e
  | Timeout => Timeout
  end.

(** Python's [lst * n]: [n] copies of [lst], none when [n <= 0]. *)
Definition list_mul {A : Type} (l : list A) (n : Z) : list A :=
  concat (replicate (Z.to_nat n) l).

(** ** Geometry collaborator *)

Module Geometry.

(** Modelled from the spec: [geometry.Point] is imported by the module
    but is not part of it.  A position is an integer (x, y) pair,
    compared by value, with vector addition and scaling by an integer. *)
Record Point : Type := mkPoint { px : Z; py : Z }.

Definition point_add (p q : Point) : Point :=
  mkPoint (px p + px q) (py p + py q).

Definition point_mul (p : Point) (k : Z) : Point :=
  mkPoint (px p * k) (py p * k).

Definition point_eqb (p q : Point) : bool :=
  (px p =? px q) && (py p =? py q).

(** Modelled from the spec: [Point.midpoint], the cell halfway between
    two positions (Python 2 integer division rounds down). *)
Definition midpoint (p q : Point) : Point :=
  mkPoint ((px p + px q) / 2) ((py p + py q) / 2).

(** Modelled from the spec: [geometry.Direction], one of the 8 compass
    directions (plus "none"), each with a unit delta vector.  North is
    towards smaller y, as on the blueprint sheet. *)
Inductive Direction : Type :=
  | dir_n | dir_ne | dir_e | dir_se | dir_s | dir_sw | dir_w | dir_nw
  | dir_none.

Definition compass (d : Direction) : string :=
  match d with
  | dir_n => "n" | dir_ne => "ne" | dir_e => "e" | dir_se => "se"
  | dir_s => "s" | dir_sw => "sw" | dir_w => "w" | dir_nw => "nw"
  | dir_none => "none"
  end.

Definition delta (d : Direction) : Point :=
  match d with
  | dir_n => mkPoint 0 (-1)
  | dir_ne => mkPoint 1 (-1)
  | dir_e => mkPoint 1 0
  | dir_se => mkPoint 1 1
  | dir_s => mkPoint 0 1
  | dir_sw => mkPoint (-1) 1
  | dir_w => mkPoint (-1) 0
  | dir_nw => mkPoint (-1) (-1)
  | dir_none => mkPoint 0 0
  end.

Definition all_directions : list Direction :=
  [dir_n; dir_ne; dir_e; dir_se; dir_s; dir_sw; dir_w; dir_nw].

(** Modelled from the spec: [Direction.get_direction], the direction
    that most directly connects two positions: the compass direction
    whose delta has the signs of the two coordinate differences. *)
Definition get_direction (from to : Point) : Direction :=
  match px to ?= px from, py to ?= py from with
  | Eq, Lt => dir_n
  | Gt, Lt => dir_ne
  | Gt, Eq => dir_e
  | Gt, Gt => dir_se
  | Eq, Gt => dir_s
  | Lt, Gt => dir_sw
  | Lt, Eq => dir_w
  | Lt, Lt => dir_nw
  | Eq, Eq => dir_none
  end.

(** Modelled from the spec: [geometry.Area], a pair of corner positions
    exposing width, height, cell count and the corner opposite a given
    corner. *)
Record Area : Type := mkArea { corner1 : Point; corner2 : Point }.

Definition area_width (a : Area) : Z :=
  Z.abs (px (corner1 a) - px (corner2 a)) + 1.

Definition area_height (a : Area) : Z :=
  Z.abs (py (corner1 a) - py (corner2 a)) + 1.

Definition area_size (a : Area) : Z := area_width a * area_height a.

Definition opposite_corner (a : Area) (p : Point) : Point :=
  mkPoint (px (corner1 a) + px (corner2 a) - px p)
          (py (corner1 a) + py (corner2 a) - py p).

End Geometry.

Export Geometry.

(** ** Collaborators of the planner *)

(** Modelled from the spec: a grid cell, a position's designation: the
    command string and the area it belongs to. *)
Record Cell : Type := mkCell { command : string; area : Area }.

(** Modelled from the spec: the grid collaborator maps a position to its
    designated cell and answers out-of-bounds queries. *)
Record Grid : Type := mkGrid {
  get_cell : Point -> Cell;
  is_out_of_bounds : Point -> bool
}.

(** Modelled from the spec: the build configuration, a policy table read
    through [buildconfig.get(name)] and [buildconfig.get(name, command)].
    An absent or empty entry is [None]. *)
Record BuildConfig : Type := mkBuildConfig {
  bc_init : option (list string);
  bc_submenukeys : list string;
  bc_samecmd : string -> option (list string);
  bc_diffcmd : string -> option (list string);
  bc_designate : string -> list string;
  bc_setsize : string -> string;
  bc_setmats : string -> option string
}.

(** Python's [x or []] for an entry of the configuration. *)
Definition or_empty (x : option (list string)) : list string :=
  match x with
  | Some l => l
  | None => []
  end.

(** ** Static translation tables: [KEY_LIST] *)

Definition key_table : list (string * string) :=
  [ (">", "^5");
    ("<", "+5");
    ("[n]", "8");
    ("[ne]", "9");
    ("[e]", "6");
    ("[se]", "3");
    ("[s]", "2");
    ("[sw]", "1");
    ("[w]", "4");
    ("[nw]", "7");
    ("[+n]", "+8");
    ("[+ne]", "+9");
    ("[+e]", "+6");
    ("[+se]", "+3");
    ("[+s]", "+2");
    ("[+sw]", "+1");
    ("[+w]", "+4");
    ("[+nw]", "+7");
    ("[widen]", "k");
    ("[heighten]", "u");
    ("[menudown]", "{NumpadAdd}");
    ("[menuup]", "{NumpadSub}");
    ("!", "{Enter}");
    ("#", "+{Enter}");
    ("%", "{wait}");
    ("^", "{Esc}") ].

Definition macro_table : list (string * string) :=
  [ (">", ">");
    ("<", "<");
    ("[n]", "0:8");
    ("[ne]", "0:9");
    ("[e]", "0:6");
    ("[se]", "0:3");
    ("[s]", "0:2");
    ("[sw]", "0:1");
    ("[w]", "0:4");
    ("[nw]", "0:7");
    ("[+n]", "1:8");
    ("[+ne]", "1:9");
    ("[+e]", "1:6");
    ("[+se]", "1:3");
    ("[+s]", "1:2");
    ("[+sw]", "1:1");
    ("[+w]", "1:4");
    ("[+nw]", "1:7");
    ("[widen]", "k");
    ("[heighten]", "u");
    ("[menudown]", "+");
    ("[menuup]", "-");
    ("!", "0:Enter");
    ("#", "1:Enter");
    ("%", EmptyString) ].

(** A value stored in the module-level dictionary: one of the two
    per-mode tables, or (once [parse_interface_txt] has run) the list of
    macro command lines bound to a key. *)
Inductive value : Type :=
  | VTable (t : gmap string string)
  | VList (l : list string).

(** The module-level [KEY_LIST] as it is when the module is loaded. *)
Definition KEY_LIST : gmap string value :=
  <["macro" := VTable (list_to_map macro_table)]>
    (<["key" := VTable (list_to_map key_table)]> ∅).

(** Code that reads or writes the module-level dictionary: it is run on
    the current dictionary and leaves the next one, also when it raises. *)
Definition Py (A : Type) : Type :=
  gmap string value -> res A * gmap string value.

Definition py_ret {A : Type} (a : A) : Py A := fun g => (Ret a, g).

Definition py_raise {A : Type} (e : exn) : Py A := fun g => (Raise e, g).

Definition py_bind {A B : Type} (m : Py A) (f : A -> Py B) : Py B :=
  fun g =>
    match m g with
    | (Ret a, g') => f a g'
    | (Raise e, g') => (Raise e, g')
    | (Timeout, g') => (Timeout, g')
    end.

(** [for x in l: body(x)] for a body that only has effects. *)
Fixpoint py_for {A : Type} (l : list A) (body : A -> Py unit) : Py unit :=
  match l with
  | [] => py_ret tt
  | x :: l' => py_bind (body x) (fun _ => py_for l' body)
  end.

(** ** Keycode translation *)

(** [translate_keycode(keycode, mode)]:
    [KEY_LIST[mode].get(keycode) or keycode]. *)
Definition translate_keycode (keycode mode : string) : Py string :=
  fun g =>
    match g !! mode with
    | None => (Raise (KeyError mode), g)
    | Some (VList _) => (Raise (AttributeError "get"), g)
    | Some (VTable t) =>
      match t !! keycode with
      | Some token => (Ret (if String.eqb token EmptyString then keycode else token), g)
      | None => (Ret keycode, g)
      end
    end.

(** [translate_keycodes(keycodes, mode)].  [util.flatten] is applied to
    the list of translations; these are strings, so the list is flat
    already and is returned as it is. *)
Fixpoint translate_keycodes (keycodes : list string) (mode : string)
  : Py (list string) :=
  match keycodes with
  | [] => py_ret []
  | k :: ks =>
    py_bind (translate_keycode k mode) (fun t =>
    py_bind (translate_keycodes ks mode) (fun ts =>
    py_ret (t :: ts)))
  end.

(** The inverse of the key-mode table: the keycode a token stands for. *)
Definition key_inverse (token : string) : option string :=
  fst <$> find (fun kv => String.eqb (snd kv) token) key_table.

(** ** Splitting a command into keycodes *)

Definition bar : ascii := "|"%char.

(** [re.sub] of a one-character pattern: every [c] becomes [rep]. *)
Fixpoint sub_char (c : ascii) (rep : string) (s : string) : string :=
  match s with
  | EmptyString => EmptyString
  | String a r =>
    if Ascii.eqb a c then rep +:+ sub_char c rep r
    else String a (sub_char c rep r)
  end.

(** [re.sub(r'\+\!', '|+!|', s)]. *)
Fixpoint sub_plus_bang (s : string) : string :=
  match s with
  | EmptyString => EmptyString
  | String a r =>
    match r with
    | String b r' =>
      if Ascii.eqb a "+" && Ascii.eqb b "!" then "|+!|" +:+ sub_plus_bang r'
      else String a (sub_plus_bang r)
    | EmptyString => String a EmptyString
    end
  end.

(** Puts a character in front of the first segment. *)
Definition cons_first (a : ascii) (segs : list string) : list string :=
  match segs with
  | seg :: segs' => String a seg :: segs'
  | [] => [String a EmptyString]
  end.

(** [re.split(r'\|+', s)]: the segments between maximal runs of bars; a
    run at either end of the string leaves an empty segment there. *)
Fixpoint split_bars (s : string) : list string :=
  match s with
  | EmptyString => [EmptyString]
  | String a r =>
    if Ascii.eqb a bar then
      match r with
      | String b _ =>
        if Ascii.eqb b bar then split_bars r
        else EmptyString :: split_bars r
      | EmptyString => EmptyString :: split_bars r
      end
    else cons_first a (split_bars r)
  end.

(** The characters of a string, one string each. *)
Fixpoint chars (s : string) : list string :=
  match s with
  | EmptyString => []
  | String a r => String a EmptyString :: chars r
  end.

(** The loop that turns the segments into keycodes; [k[0]] raises on an
    empty segment. *)
Fixpoint segments_to_codes (cmdsplit : list string) (codes : list string)
  : res (list string) :=
  match cmdsplit with
  | [] => Ret codes
  | k :: ks =>
    match k with
    | EmptyString => Raise IndexError
    | String a _ =>
      if Ascii.eqb a "{" || Ascii.eqb a "!" || Ascii.eqb a "^" || Ascii.eqb a "+"
      then segments_to_codes ks (codes ++ [k])
      else segments_to_codes ks (codes ++ chars k)
    end
  end.

(** The string the substitutions leave for [re.split]. *)
Definition cmdedit (keystring : string) : string :=
  sub_char "^" "|^|"
    (sub_char "!" "|!|"
      (sub_plus_bang
        (sub_char "}" "}|"
          (sub_char "{" "|{" keystring)))).

(** [split_keystring_into_keycodes(keystring)]. *)
Definition split_keystring_into_keycodes (keystring : string)
  : res (list string) :=
  segments_to_codes (split_bars (cmdedit keystring)) [].

(** ** The planner: [class Keystroker] *)

(** The variables the [while] loop of [move] reads and writes. *)
Record MoveState : Type := mkMoveState {
  ms_start : Point;
  ms_keys : list string;
  ms_allow_backtrack : bool
}.

(** Number of cells between two positions along the axes; no run of the
    loop of [move] needs more passes than this. *)
Definition distance (p q : Point) : Z :=
  Z.abs (px p - px q) + Z.abs (py p - py q).

(** The variables [plot] threads from one area to the next. *)
Record PlotState : Type := mkPlotState {
  pl_cursor : Point;
  pl_last_command : string;
  pl_last_submenu : string;
  pl_keys : list string
}.

(** The template loop of [plot],
    [for c in nextcmd: if c == 'cmd': nextcodes.extend(codes)
                       else: nextcmd.append(c)],
    as the interpreter runs it: position [i] walks the list [nextcmd],
    which the [else] branch makes longer while it is being walked.  The
    loop is left when [i] reaches the end of the list. *)
Fixpoint expand_nextcmd (fuel : nat) (i : nat) (nextcmd codes nextcodes : list string)
  : res (list string) :=
  match nextcmd !! i with
  | None => Ret nextcodes
  | Some c =>
    match fuel with
    | O => Timeout
    | S fuel' =>
      if String.eqb c "cmd"
      then expand_nextcmd fuel' (S i) nextcmd codes (nextcodes ++ codes)
      else expand_nextcmd fuel' (S i) (nextcmd ++ [c]) codes nextcodes
    end
  end.

(** The pattern loop of [plot]: a slot name is replaced by its keys, any
    other entry is kept. *)
Fixpoint substitute_pattern (subs : gmap string (list string))
    (pattern : list string) (newkeys : list string) : list string :=
  match pattern with
  | [] => newkeys
  | p :: ps =>
    match subs !! p with
    | Some v => substitute_pattern subs ps (newkeys ++ v)
    | None => substitute_pattern subs ps (newkeys ++ [p])
    end
  end.

Section Keystroker.

(** [self.grid] and [self.buildconfig]. *)
Variable grid : Grid.
Variable buildconfig : BuildConfig.

(** [re.match(pattern, string)] of the regular-expression library, as a
    test. *)
Variable re_match : string -> string -> bool.

(** One pass through the body of [while start != end]. *)
Definition move_body (end_ : Point) (allowjumps : bool) (st : MoveState)
  : MoveState :=
  let start := ms_start st in
  let keys := ms_keys st in
  let direction := get_direction start end_ in
  let dx := Z.abs (px start - px end_) in
  let dy := Z.abs (py start - py end_) in
  let steps :=
    if dx =? 0 then dy
    else if dy =? 0 then dx
    else Z.min dx dy in
  let keycode := ["[" +:+ compass direction +:+ "]"] in
  let jumpkeycode := ["[+" +:+ compass direction +:+ "]"] in
  let move := delta direction in
  if negb allowjumps || (steps <? 8) || negb (ms_allow_backtrack st) then
    mkMoveState (point_add start (point_mul move steps))
                (keys ++ list_mul keycode steps)
                true
  else
    let jumps := steps / 10 in
    let leftover := steps mod 10 in
    let jumpmove := point_mul move 10 in
    let '(jumps, st1) :=
      if 8 <=? leftover then
        let test := point_add start (point_mul jumpmove (jumps + 1)) in
        if is_out_of_bounds grid test then
          (jumps,
           mkMoveState (point_add start (point_mul move steps))
                       (keys ++ list_mul keycode leftover)
                       false)
        else
          let jumps := jumps + 1 in
          (jumps,
           mkMoveState (point_add start (point_mul jumpmove jumps))
                       keys
                       true)
      else
        (jumps,
         mkMoveState (point_add start (point_mul move steps))
                     (keys ++ list_mul keycode leftover)
                     true) in
    if 0 <? jumps then
      mkMoveState (ms_start st1)
                  (ms_keys st1 ++ list_mul jumpkeycode jumps)
                  (ms_allow_backtrack st1)
    else st1.

(** The [while start != end] loop, run for at most [fuel] passes. *)
Fixpoint move_loop (fuel : nat) (end_ : Point) (allowjumps : bool)
    (st : MoveState) : res (list string) :=
  if point_eqb (ms_start st) end_ then Ret (ms_keys st)
  else
    match fuel with
    | O => Timeout
    | S fuel' => move_loop fuel' end_ allowjumps (move_body end_ allowjumps st)
    end.

(** The z-level keys emitted before the loop. *)
Definition zmoves (zoffset : Z) : list string :=
  if 0 <? zoffset then list_mul [">"] zoffset
  else if zoffset <? 0 then list_mul ["<"] (Z.abs zoffset)
  else [].

(** [Keystroker.move] with a bound on the number of loop passes. *)
Definition move_fuel (fuel : nat) (start end_ : Point) (zoffset : Z)
    (allowjumps : bool) : res (list string) :=
  move_loop fuel end_ allowjumps (mkMoveState start (zmoves zoffset) true).

(** [Keystroker.move(start, end, zoffset, allowjumps)]. *)
Definition move (start end_ : Point) (zoffset : Z) (allowjumps : bool)
  : res (list string) :=
  move_fuel (Z.to_nat (distance start end_)) start end_ zoffset allowjumps.

(** [Keystroker.setsize_standard(start, end)]. *)
Definition setsize_standard (start end_ : Point) : res (list string * Point) :=
  keys ← move start end_ 0 true;
  Ret (keys, end_).

(** [Keystroker.setsize_build(start, end)]. *)
Definition setsize_build (start end_ : Point) : res (list string * Point) :=
  let midpoint := midpoint start end_ in
  keys ← move start midpoint 0 true;
  let area := mkArea start end_ in
  let keys := keys ++ list_mul ["[widen]"] (area_width area - 1) in
  let keys := keys ++ list_mul ["[heighten]"] (area_height area - 1) in
  Ret (keys, midpoint).

(** [Keystroker.setsize_fixed(start, end)]. *)
Definition setsize_fixed (start end_ : Point) : res (list string * Point) :=
  let midpoint := midpoint start end_ in
  keys ← move start midpoint 0 true;
  Ret (keys, midpoint).

(** [Keystroker.setmats(areasize)].  [int(sqrt(areasize))] is the integer
    square root; [sqrt] raises on a negative number. *)
Definition setmats (areasize : Z) : res (list string) :=
  if areasize =? 1 then Ret ["#"]
  else if areasize <? 0 then Raise (ValueError "math domain error")
  else
    let reps := 2 * Z.sqrt areasize in
    let keys := list_mul ["#"; "[menudown]"] (reps - 1) in
    Ret (keys ++ ["#"]).

(** [getattr(self, name)] for the name of a sizing strategy. *)
Definition getattr_setsize (name : string)
  : res (Point -> Point -> res (list string * Point)) :=
  if String.eqb name "setsize_standard" then Ret setsize_standard
  else if String.eqb name "setsize_build" then Ret setsize_build
  else if String.eqb name "setsize_fixed" then Ret setsize_fixed
  else Raise (AttributeError name).

(** [getattr(self, name)] for the name of a materials strategy. *)
Definition getattr_setmats (name : string) : res (Z -> res (list string)) :=
  if String.eqb name "setmats" then Ret setmats
  else Raise (AttributeError name).

(** What the submenu loop of [plot] reads and writes. *)
Record MenuState : Type := mkMenuState {
  mn_subs : gmap string (list string);
  mn_last_submenu : string;
  mn_justcommand : option string
}.

(** One pass of [for k in submenukeys].  [subs['menu'] = submenu] stores a
    one-character string, which the pattern loop later adds with
    [extend], that is as the one keycode [submenu]. *)
Definition submenu_body (command : string) (ms : MenuState) (k : string)
  : res MenuState :=
  if re_match k command then
    match command with
    | EmptyString => Raise IndexError
    | String c rest =>
      let submenu := String c EmptyString in
      let subs := mn_subs ms in
      let last_submenu := mn_last_submenu ms in
      if String.eqb last_submenu EmptyString then
        Ret (mkMenuState (<["exitmenu" := []]> (<["menu" := [submenu]]> subs))
                         submenu (Some rest))
      else if negb (String.eqb last_submenu submenu) then
        Ret (mkMenuState (<["menu" := [submenu]]> (<["exitmenu" := ["^"]]> subs))
                         submenu (Some rest))
      else
        Ret (mkMenuState (<["exitmenu" := []]> (<["menu" := []]> subs))
                         last_submenu (Some rest))
    end
  else Ret ms.

Fixpoint submenu_loop (command : string) (submenukeys : list string)
    (ms : MenuState) : res MenuState :=
  match submenukeys with
  | [] => Ret ms
  | k :: ks =>
    ms' ← submenu_body command ms k;
    submenu_loop command ks ms'
  end.

(** The [if not justcommand:] block after the submenu loop. *)
Definition no_submenu (command : string) (ms : MenuState) : MenuState :=
  match mn_justcommand ms with
  | Some (String _ _) => ms
  | _ =>
    let subs := mn_subs ms in
    let subs :=
      if negb (String.eqb (mn_last_submenu ms) EmptyString)
      then <["exitmenu" := ["^"]]> subs
      else <["exitmenu" := []]> subs in
    mkMenuState (<["menu" := []]> subs) EmptyString (Some command)
  end.

(** The body of [for pos in plots]. *)
Definition plot_area (fuel : nat) (st : PlotState) (pos : Point)
  : res PlotState :=
  let cell := get_cell grid pos in
  let command := command cell in
  let endpos := opposite_corner (area cell) pos in
  let subs : gmap string (list string) := ∅ in
  let '(nextcmd, last_command) :=
    if String.eqb command (pl_last_command st)
    then (or_empty (bc_samecmd buildconfig command), pl_last_command st)
    else (or_empty (bc_diffcmd buildconfig command), command) in
  moveto ← move (pl_cursor st) pos 0 true;
  let subs := <["moveto" := moveto]> subs in
  setsizefun ← getattr_setsize (bc_setsize buildconfig command);
  '(setsize, newpos) ← setsizefun pos endpos;
  let subs := <["setsize" := setsize]> subs in
  subs ← match bc_setmats buildconfig command with
         | Some (String _ _ as setmatscfg) =>
           setmatsfun ← getattr_setmats setmatscfg;
           mats ← setmatsfun (area_size (area cell));
           Ret (<["setmats" := mats]> subs)
         | _ => Ret subs
         end;
  ms ← submenu_loop command (bc_submenukeys buildconfig)
         (mkMenuState subs (pl_last_submenu st) None);
  let ms := no_submenu command ms in
  let justcommand := default EmptyString (mn_justcommand ms) in
  codes ← split_keystring_into_keycodes justcommand;
  nextcodes ← expand_nextcmd fuel 0 nextcmd codes [];
  let subs := <["cmd" := nextcodes]> (mn_subs ms) in
  let pattern := bc_designate buildconfig command in
  let newkeys := substitute_pattern subs pattern [] in
  Ret (mkPlotState newpos last_command (mn_last_submenu ms)
                   (pl_keys st ++ newkeys)).

Fixpoint plot_loop (fuel : nat) (plots : list Point) (st : PlotState)
  : res PlotState :=
  match plots with
  | [] => Ret st
  | pos :: ps =>
    st' ← plot_area fuel st pos;
    plot_loop fuel ps st'
  end.

(** [Keystroker.plot(plots, cursor)]; [fuel] bounds the passes of each
    template loop. *)
Definition plot (fuel : nat) (plots : list Point) (cursor : Point)
  : res (list string) :=
  st ← plot_loop fuel plots
         (mkPlotState cursor EmptyString EmptyString (or_empty (bc_init buildconfig)));
  Ret (pl_keys st).

End Keystroker.

(** *** Replaying movement keycodes *)

(** The displacement a keycode stands for: one cell for a compass
    keycode, ten for a jump keycode, none for any other keycode. *)
Definition key_motion (k : string) : option (Direction * Z) :=
  match find (fun d => String.eqb k ("[" +:+ compass d +:+ "]")) all_directions with
  | Some d => Some (d, 1)
  | None =>
    match find (fun d => String.eqb k ("[+" +:+ compass d +:+ "]")) all_directions with
    | Some d => Some (d, 10)
    | None => None
    end
  end.

Definition replay_key (p : Point) (k : string) : Point :=
  match key_motion k with
  | Some (d, n) => point_add p (point_mul (delta d) n)
  | None => p
  end.

(** The cursor after the keycodes are played, in order, from [p]. *)
Definition replay (keys : list string) (p : Point) : Point :=
  fold_left replay_key keys p.

(** ** Macro output *)

Definition newline : ascii := ascii_of_nat 10.
Definition tab : ascii := ascii_of_nat 9.
Definition dquote : ascii := ascii_of_nat 34.

(** [s] begins with [pre]. *)
Fixpoint starts_with (pre s : string) : bool :=
  match pre, s with
  | EmptyString, _ => true
  | String a pre', String b s' => Ascii.eqb a b && starts_with pre' s'
  | String _ _, EmptyString => false
  end.

(** [re.split] of a literal, non-empty separator.  [skip] counts the
    characters of a separator that are still to be passed over. *)
Fixpoint split_literal (sep : string) (skip : nat) (s : string) : list string :=
  match s with
  | EmptyString => [EmptyString]
  | String a r =>
    match skip with
    | S n => split_literal sep n r
    | O =>
      if starts_with sep s
      then EmptyString :: split_literal sep (Nat.pred (String.length sep)) r
      else cons_first a (split_literal sep O r)
    end
  end.

(** The class [\w] of Python 2: letters, digits and the underscore. *)
Definition is_word (a : ascii) : bool :=
  let n := N_of_ascii a in
  ((48 <=? n) && (n <=? 57) || (65 <=? n) && (n <=? 90)
   || (97 <=? n) && (n <=? 122) || (n =? 95))%N.

(** What follows the run of word characters at the head of [s]. *)
Fixpoint after_word (s : string) : string :=
  match s with
  | EmptyString => EmptyString
  | String a r => if is_word a then after_word r else s
  end.

(** [(\w+):.+] matches at the head of [s]: a run of word characters, a
    colon, and one more character that is not a line break. *)
Definition bind_match_here (s : string) : bool :=
  match s with
  | String a _ =>
    is_word a &&
    match after_word s with
    | String c (String d _) => Ascii.eqb c ":" && negb (Ascii.eqb d newline)
    | _ => false
    end
  | EmptyString => false
  end.

Inductive bind_mode : Type := BScan | BWord | BRest.

(** [re.sub(r'(\w+):.+', r'\1', s)]: of every match only the word before
    the colon is kept.  [BWord] copies that word, [BRest] drops the colon
    and what [.+] takes, up to the end of the line. *)
Fixpoint sub_bind (m : bind_mode) (s : string) : string :=
  match s with
  | EmptyString => EmptyString
  | String a r =>
    match m with
    | BScan =>
      if bind_match_here s then String a (sub_bind BWord r)
      else String a (sub_bind BScan r)
    | BWord =>
      if is_word a then String a (sub_bind BWord r)
      else sub_bind BRest r
    | BRest =>
      if Ascii.eqb a newline then String a (sub_bind BScan r)
      else sub_bind BRest r
    end
  end.

(** A closing bracket occurs in [s] before any line break. *)
Fixpoint closes_on_line (s : string) : bool :=
  match s with
  | EmptyString => false
  | String a r =>
    if Ascii.eqb a "]" then true
    else if Ascii.eqb a newline then false
    else closes_on_line r
  end.

(** [\[(KEY:|SYM:)(.+?)\]] matches at the head of [s]. *)
Definition key_match_here (s : string) : bool :=
  match s with
  | String _ (String _ (String _ (String _ (String _ (String d r))))) =>
    (starts_with "[KEY:" s || starts_with "[SYM:" s)
    && negb (Ascii.eqb d newline) && closes_on_line r
  | _ => false
  end.

Inductive key_mode : Type := KScan | KSkip (n : nat) | KFirst | KBody.

(** [re.sub(r'\[(KEY:|SYM:)(.+?)\]', r'\2', s)]: of every match only the
    identifier between the prefix and the closing bracket is kept.
    [KSkip] drops the rest of the prefix, [KFirst] copies the one
    character [.+?] must take, [KBody] copies up to the first closing
    bracket and drops it. *)
Fixpoint sub_key (m : key_mode) (s : string) : string :=
  match s with
  | EmptyString => EmptyString
  | String a r =>
    match m with
    | KScan =>
      if key_match_here s then sub_key (KSkip 3) r
      else String a (sub_key KScan r)
    | KSkip (S n) => sub_key (KSkip n) r
    | KSkip O => sub_key KFirst r
    | KFirst => String a (sub_key KBody r)
    | KBody =>
      if Ascii.eqb a "]" then sub_key KScan r
      else String a (sub_key KBody r)
    end
  end.

(** The body of [for k in keys] of [parse_interface_txt]; [keybinds] is
    the module-level dictionary itself. *)
Definition bind_key (bind : string) (k : string) : Py unit :=
  fun keybinds =>
    if String.eqb k EmptyString then (Ret tt, keybinds)
    else
      let line := String tab (String tab bind) in
      match keybinds !! k with
      | None => (Ret tt, <[k := VList [line]]> keybinds)
      | Some (VList l) => (Ret tt, <[k := VList (l ++ [line])]> keybinds)
      | Some (VTable _) => (Raise (AttributeError "append"), keybinds)
      end.

(** The body of [for kb in groups]. *)
Definition bind_group (kb : list string) : Py unit :=
  match kb with
  | [] => py_raise IndexError
  | [EmptyString] => py_ret tt
  | kb0 :: rest =>
    let bind := sub_bind BScan kb0 in
    let keys := map (sub_key KScan) rest in
    py_for keys (bind_key bind)
  end.

(** The groups of the file: it is cut at every [[BIND:], and every piece
    is cut into lines. *)
Definition groups_of (data : string) : list (list string) :=
  map (split_literal (String newline EmptyString) O)
      (split_literal "[BIND:" O data).

(** [parse_interface_txt(path)], for a file with contents [data].
    [keybinds = KEY_LIST] names the module-level dictionary, so the
    dictionary returned is that dictionary, changed in place. *)
Definition parse_interface_txt (data : string) : Py (gmap string value) :=
  py_bind (py_for (groups_of data) bind_group) (fun _ =>
  fun keybinds => (Ret keybinds, keybinds)).

(** ["Key '%s' not bound in interface.txt" % key]. *)
Definition not_bound_message (key : string) : string :=
  "Key '" +:+ key +:+ "' not bound in interface.txt".

(** What [output.extend(v)] adds for a value of the dictionary: the
    lines of a list; for a table, its keys (taken here in the order of
    the keys; the interpreter takes them in the order of its hash
    table). *)
Definition extend_with (v : value) : list string :=
  match v with
  | VList l => l
  | VTable t => (map_to_list t).*1
  end.

(** The loop [for key in keycodes] of [convert_to_macro]. *)
Fixpoint macro_groups (keybinds : gmap string value) (keycodes : list string)
    (output : list string) : res (list string) :=
  match keycodes with
  | [] => Ret output
  | key :: keys =>
    match keybinds !! key with
    | None => Raise (Fatal (not_bound_message key))
    | Some v =>
      let output :=
        if String.eqb key "^"
        then output ++ [String tab (String tab "LEAVESCREEN")]
        else output ++ extend_with v in
      macro_groups keybinds keys (output ++ [String tab "End of group"])
    end
  end.

(** [convert_to_macro(keycodes, title)]; [data] is the contents of
    [interface.txt] and [rnd] the number [random.randrange] draws. *)
Definition convert_to_macro (data : string) (rnd : N)
    (keycodes : list string) (title : option string) : Py (list string) :=
  py_bind (parse_interface_txt data) (fun keybinds =>
    let title :=
      match title with
      | Some (String _ _ as t) => t
      | _ => "@@@qf" +:+ pretty rnd
      end in
    fun g =>
      (output ← macro_groups keybinds keycodes [title];
       Ret (output ++ ["End of macro"]), g)).

(** ['\n'.join(lines)]. *)
Fixpoint join_lines (lines : list string) : string :=
  match lines with
  | [] => EmptyString
  | [l] => l
  | l :: ls => l +:+ String newline (join_lines ls)
  end.

(** [convert_keys(keys, mode, title)]. *)
Definition convert_keys (data : string) (rnd : N)
    (keys : list string) (mode : string) (title : option string) : Py string :=
  py_bind (translate_keycodes keys mode) (fun keys =>
    if String.eqb mode "macro" then
      py_bind (convert_to_macro data rnd keys title) (fun lines =>
      py_ret (join_lines lines +:+ String newline EmptyString))
    else if String.eqb mode "key" then
      py_ret (fold_right String.append EmptyString keys)
    else
      py_raise (Fatal ("Unknown Keystroker.render() mode "
                       +:+ String dquote mode +:+ String dquote EmptyString))).

(** ** The specification's own words, for comparison *)


(** The token the table gives for a keycode, if it has one. *)
Definition table_token (table : list (string * string)) (keycode : string)
  : option string :=
  snd <$> find (fun kv => String.eqb (fst kv) keycode) table.

(** The last character of a string. *)
Fixpoint last_char (s : string) : option ascii :=
  match s with
  | EmptyString => None
  | String a r =>
    match r with
    | EmptyString => Some a
    | String _ _ => last_char r
    end
  end.

(** The keystring begins with one of the special tokens: an opening
    brace, ['!'], ['^'] or ['+!']. *)
Definition begins_special (s : string) : bool :=
  starts_with "{" s || starts_with "!" s || starts_with "^" s
  || starts_with "+!" s.

(** The keystring ends with one of the special tokens: a closing brace,
    ['!'] (which covers ['+!']) or ['^']. *)
Definition ends_special (s : string) : bool :=
  match last_char s with
  | Some a => Ascii.eqb a "}" || Ascii.eqb a "!" || Ascii.eqb a "^"
  | None => false
  end.

(** The keys a keybinding file binds: the identifiers, other than empty
    ones, on the lines that follow the header of a group. *)
Definition group_keys (kb : list string) : list string :=
  match kb with
  | [] => []
  | [EmptyString] => []
  | _ :: rest =>
    filter (fun k => k <> EmptyString) (map (sub_key KScan) rest)
  end.

Definition bound_keys (data : string) : list string :=
  concat (map group_keys (groups_of data)).

(** The string begins with a bar. *)
Definition head_is_bar (s : string) : bool :=
  match s with
  | String a _ => Ascii.eqb a bar
  | EmptyString => false
  end.

(** The only tables in the dictionary are the two mode tables. *)
Definition modes_only (g : gmap string value) : Prop :=
  forall k t, g !! k = Some (VTable t) -> k = "key" \/ k = "macro".


(** ** Concrete inputs *)

(** A keybinding file with one group that binds two keys. *)
Definition interface_sample : string :=
  "[BIND:SELECT:REPEAT_NOT]" +:+ String newline
  ("[SYM:0:Enter]" +:+ String newline
  ("[KEY:8]" +:+ String newline EmptyString)).

(** [re.match] for patterns without operators: the string begins with
    the pattern. *)
Definition literal_match (pattern s : string) : bool := starts_with pattern s.

(** A grid whose cells all belong to one 3 by 3 area holding the build
    command ["Cw"], and that has no bounds. *)
Definition sample_grid : Grid :=
  mkGrid (fun _ => mkCell "Cw" (mkArea (mkPoint 0 0) (mkPoint 2 2)))
         (fun _ => false).

(** A build configuration whose commands are sized by [name]. *)
Definition sample_config (name : string) : BuildConfig :=
  mkBuildConfig None ["C"]
    (fun _ => Some ["cmd"]) (fun _ => Some ["cmd"])
    (fun _ => ["moveto"; "menu"; "cmd"; "!"; "setsize"; "!"; "setmats"; "exitmenu"])
    (fun _ => name) (fun _ => Some "setmats").

(** The planner's state before the first area, with the cursor at the
    origin. *)
Definition sample_start : PlotState :=
  mkPlotState (mkPoint 0 0) EmptyString EmptyString [].

(** ** Further notions used in the properties *)

(** The number of single steps between two positions when diagonal
    steps are allowed: the larger of the two coordinate differences. *)
Definition steps_apart (p q : Point) : Z :=
  Z.max (Z.abs (px p - px q)) (Z.abs (py p - py q)).

(** The positions the cursor passes through, one after each keycode,
    when the keycodes are played from [p]. *)
Fixpoint replay_path (keys : list string) (p : Point) : list Point :=
  match keys with
  | [] => []
  | k :: ks => replay_key p k :: replay_path ks (replay_key p k)
  end.

(** The position lies on a sheet of [w] columns and [h] rows. *)
Definition inside (w h : Z) (p : Point) : bool :=
  (0 <=? px p) && (px p <? w) && (0 <=? py p) && (py p <? h).

(** The keycode is one of the eight jump keycodes. *)
Definition is_jump_key (k : string) : bool :=
  existsb (fun d => String.eqb k ("[+" +:+ compass d +:+ "]")) all_directions.

(** What the submenu loop leaves: either no pattern has matched yet, or
    the command has a first character, which is the active submenu, and
    the rest of the command is what remains to be typed. *)
Definition submenu_settled (command : string) (ms : MenuState) : Prop :=
  mn_justcommand ms = None
  \/ exists c rest,
       command = String c rest
       /\ mn_last_submenu ms = String c EmptyString
       /\ mn_justcommand ms = Some rest.

(** The first character of a string. *)
Definition head_char (s : string) : option ascii :=
  match s with
  | EmptyString => None
  | String a _ => Some a
  end.

(** The string ends with a bar. *)
Definition ends_with_bar (s : string) : bool :=
  match last_char s with
  | Some a => Ascii.eqb a bar
  | None => false
  end.

(** The keystrings [split_keystring_into_keycodes] cannot split: the
    empty one, and those with a special token or a bar at either end. *)
Definition unsplittable (s : string) : bool :=
  String.eqb s EmptyString
  || begins_special s || head_is_bar s
  || ends_special s || ends_with_bar s.

(** The string without its bars. *)
Fixpoint strip_bars (s : string) : string :=
  match s with
  | EmptyString => EmptyString
  | String a r => if Ascii.eqb a bar then strip_bars r else String a (strip_bars r)
  end.

(** [''.join(strings)]. *)
Definition join (strings : list string) : string :=
  fold_right String.append EmptyString strings.

(** The key-mode token of a keycode: the table's token, or the keycode
    itself when the table does not have it. *)
Definition key_token (keycode : string) : string :=
  default keycode (table_token key_table keycode).

(** The lines the dictionary holds for a key; none when the key has no
    entry. *)
Definition lines_of (g : gmap string value) (k : string) : list string :=
  match g !! k with
  | Some (VList l) => l
  | _ => []
  end.

(** The lines one group of a keybinding file binds to the key [k]: the
    action name of its header, tab-indented, once for every line of the
    group that names [k]. *)
Definition group_lines (k : string) (kb : list string) : list string :=
  match kb with
  | [] => []
  | kb0 :: _ =>
    replicate (length (filter (fun x => x = k) (group_keys kb)))
              (String tab (String tab (sub_bind BScan kb0)))
  end.

(** The lines a keybinding file binds to [k], in the order of the file. *)
Definition bindings_of (data : string) (k : string) : list string :=
  concat (map (group_lines k) (groups_of data)).



(** A keybinding file with two groups that bind the same key. *)
Definition interface_two_groups : string :=
  "[BIND:SELECT:REPEAT_NOT]" +:+ String newline
  ("[SYM:0:Enter]" +:+ String newline
  ("[BIND:LEAVESCREEN:REPEAT_NOT]" +:+ String newline
  ("[SYM:0:Escape]" +:+ String newline
  ("[BIND:CLOSE_MEGA_ANNOUNCEMENT:REPEAT_NOT]" +:+ String newline
  ("[SYM:0:Enter]" +:+ String newline
  ("[KEY:^]" +:+ String newline EmptyString)))))).

(** Every character of the string passes the test. *)
Fixpoint all_chars (p : ascii -> bool) (s : string) : bool :=
  match s with
  | EmptyString => true
  | String a r => p a && all_chars p r
  end.

(** A character that may stand inside a key identifier: anything but a
    closing bracket and a line break. *)
Definition identifier_char (a : ascii) : bool :=
  negb (Ascii.eqb a "]") && negb (Ascii.eqb a newline).

(** A character other than a line break. *)
Definition line_char (a : ascii) : bool := negb (Ascii.eqb a newline).

(** The patterns of the list that match the command. *)
Definition matching_keys (re_match : string -> string -> bool)
    (command : string) (submenukeys : list string) : list string :=
  List.filter (fun k => re_match k command) submenukeys.

(** Both submenu slots hold no key. *)
Definition menu_slots_empty (ms : MenuState) : Prop :=
  mn_subs ms !! "menu" = Some [] /\ mn_subs ms !! "exitmenu" = Some [].

(** * Properties *)

(** ** Movement *)

Lemma point_eqb_eq (p q : Point) : point_eqb p q = true <-> p = q.
Proof.
  destruct p as [a b], q as [c d]; unfold point_eqb; simpl.
  rewrite andb_true_iff, !Z.eqb_eq. split.
  - intros [-> ->]; reflexivity.
  - intros H; injection H; auto.
Qed.

Lemma point_eqb_neq (p q : Point) : point_eqb p q = false <-> p <> q.
Proof.
  rewrite <- point_eqb_eq. destruct (point_eqb p q); split; congruence.
Qed.

Lemma distance_zero (p q : Point) : distance p q = 0 <-> p = q.
Proof.
  destruct p as [a b], q as [c d]; unfold distance; simpl. split.
  - intros H. f_equal; lia.
  - intros H; injection H; lia.
Qed.

(** Every pass through the loop body brings the cursor strictly closer
    to the target, the overjump included. *)
Lemma move_body_distance grid end_ allowjumps st :
  ms_start st <> end_ ->
  distance (ms_start (move_body grid end_ allowjumps st)) end_
    < distance (ms_start st) end_.
Proof.
  destruct st as [[sx sy] keys ab], end_ as [ex ey]; simpl; intros Hne.
  assert (Hd : sx <> ex \/ sy <> ey).
  { destruct (Z.eq_dec sx ex), (Z.eq_dec sy ey); subst; auto; congruence. }
  unfold move_body, get_direction, distance; simpl.
  set (dx := Z.abs (sx - ex)). set (dy := Z.abs (sy - ey)).
  set (steps := if dx =? 0 then dy else if dy =? 0 then dx else Z.min dx dy).
  pose proof (Z.div_mod steps 10 ltac:(lia)) as Hdm.
  pose proof (Z.mod_pos_bound steps 10 ltac:(lia)) as Hmb.
  assert (Hsteps : (dx = 0 /\ steps = dy) \/ (dx <> 0 /\ dy = 0 /\ steps = dx)
                   \/ (dx <> 0 /\ dy <> 0 /\ steps = Z.min dx dy)).
  { subst steps. destruct (Z.eqb_spec dx 0); [auto|].
    destruct (Z.eqb_spec dy 0); auto. }
  clearbody steps. subst dx dy.
  destruct (Z.compare_spec ex sx), (Z.compare_spec ey sy);
    repeat match goal with
    | |- context [if ?b then _ else _] =>
        match b with
        | context [Z.ltb ?a ?c] => destruct (Z.ltb_spec a c)
        | context [Z.leb ?a ?c] => destruct (Z.leb_spec a c)
        | _ => destruct b
        end; simpl
    end; simpl; try lia.
Qed.

Lemma move_loop_total grid end_ allowjumps (fuel : nat) (st : MoveState) :
  distance (ms_start st) end_ <= Z.of_nat fuel ->
  exists keys, move_loop grid fuel end_ allowjumps st = Ret keys.
Proof.
  revert st. induction fuel as [|fuel IH]; intros st Hd; simpl.
  - destruct (point_eqb (ms_start st) end_) eqn:E; [eauto|].
    apply point_eqb_neq in E.
    assert (distance (ms_start st) end_ <> 0) by (rewrite distance_zero; auto).
    unfold distance in *. lia.
  - destruct (point_eqb (ms_start st) end_) eqn:E; [eauto|].
    apply point_eqb_neq in E. apply IH.
    pose proof (move_body_distance grid end_ allowjumps st E). lia.
Qed.

Lemma move_loop_more_fuel grid end_ allowjumps (fuel extra : nat) st keys :
  move_loop grid fuel end_ allowjumps st = Ret keys ->
  move_loop grid (fuel + extra) end_ allowjumps st = Ret keys.
Proof.
  revert st. induction fuel as [|fuel IH]; intros st; simpl.
  - destruct (point_eqb (ms_start st) end_) eqn:E; [|discriminate].
    intros H. destruct extra; simpl; rewrite E; exact H.
  - destruct (point_eqb (ms_start st) end_); [auto|]. apply IH.
Qed.

Lemma replay_app (l1 l2 : list string) (p : Point) :
  replay (l1 ++ l2) p = replay l2 (replay l1 p).
Proof. unfold replay. apply fold_left_app. Qed.

Lemma point_add_zero (p : Point) : point_add p (mkPoint 0 0) = p.
Proof. destruct p; unfold point_add; simpl. f_equal; lia. Qed.

Lemma replay_key_single (d : Direction) (p : Point) :
  replay_key p ("[" +:+ compass d +:+ "]") = point_add p (delta d).
Proof.
  destruct d; unfold replay_key; simpl;
    try (destruct p; unfold point_add, point_mul; simpl; f_equal; lia).
Qed.

Lemma replay_key_jump (d : Direction) (p : Point) :
  replay_key p ("[+" +:+ compass d +:+ "]")
  = point_add p (point_mul (delta d) 10).
Proof.
  destruct d; unfold replay_key; simpl;
    try (destruct p; unfold point_add, point_mul; simpl; f_equal; lia).
Qed.

Lemma replay_repeat (k : string) (v : Point) (n : Z) (p : Point) :
  (forall q, replay_key q k = point_add q v) ->
  0 <= n ->
  replay (list_mul [k] n) p = point_add p (point_mul v n).
Proof.
  intros Hk Hn. unfold list_mul.
  rewrite <- (Z2Nat.id n Hn) at 2. generalize (Z.to_nat n) as m. clear Hn.
  intros m. revert p. induction m as [|m IH]; intros p.
  - simpl. destruct p, v; unfold point_add, point_mul; simpl. f_equal; lia.
  - change (replay (k :: concat (replicate m [k])) p
            = point_add p (point_mul v (Z.of_nat (S m)))).
    unfold replay in *. simpl. rewrite IH, Hk.
    destruct p, v; unfold point_add, point_mul; simpl. f_equal; lia.
Qed.

(** The keys emitted so far always replay to the cursor the loop holds. *)
Lemma move_body_replay grid end_ allowjumps st (a : Point) :
  replay (ms_keys st) a = ms_start st ->
  replay (ms_keys (move_body grid end_ allowjumps st)) a
  = ms_start (move_body grid end_ allowjumps st).
Proof.
  destruct st as [start keys ab]; simpl; intros Hinv.
  unfold move_body; simpl.
  set (d := get_direction start end_).
  set (dx := Z.abs (px start - px end_)). set (dy := Z.abs (py start - py end_)).
  set (steps := if dx =? 0 then dy else if dy =? 0 then dx else Z.min dx dy).
  assert (Hs : 0 <= steps).
  { subst steps dx dy. repeat case_match; lia. }
  pose proof (Z.div_mod steps 10 ltac:(lia)) as Hdm.
  pose proof (Z.mod_pos_bound steps 10 ltac:(lia)) as Hmb.
  assert (Hj : 0 <= steps / 10) by (apply Z.div_pos; lia).
  clearbody steps d. clear dx dy.
  pose proof (fun n p => replay_repeat _ _ n p (replay_key_single d)) as single.
  pose proof (fun n p => replay_repeat _ _ n p (replay_key_jump d)) as jump.
  repeat match goal with
    | |- context [if ?b then _ else _] =>
        match b with
        | Z.ltb ?x ?y => destruct (Z.ltb_spec x y)
        | Z.leb ?x ?y => destruct (Z.leb_spec x y)
        | _ => destruct b eqn:?
        end; simpl
    end;
    rewrite ?replay_app, ?Hinv, ?single, ?jump by lia; try reflexivity;
    destruct start as [sx sy], (delta d) as [mx my];
    unfold point_add, point_mul; simpl;
    try (assert (steps / 10 = 0) as Hz by lia; rewrite Hz in Hdm);
    f_equal; nia.
Qed.

Lemma move_loop_replay grid end_ allowjumps (fuel : nat) st keys (a : Point) :
  replay (ms_keys st) a = ms_start st ->
  move_loop grid fuel end_ allowjumps st = Ret keys ->
  replay keys a = end_.
Proof.
  revert st. induction fuel as [|fuel IH]; intros st Hinv; simpl;
    destruct (point_eqb (ms_start st) end_) eqn:E.
  - apply point_eqb_eq in E. intros [= <-]. congruence.
  - discriminate.
  - apply point_eqb_eq in E. intros [= <-]. congruence.
  - apply IH. apply move_body_replay, Hinv.
Qed.

Lemma replay_zmoves (zoffset : Z) (p : Point) : replay (zmoves zoffset) p = p.
Proof.
  assert (Hup : forall q, replay_key q ">" = point_add q (mkPoint 0 0))
    by (intros q; rewrite point_add_zero; reflexivity).
  assert (Hdown : forall q, replay_key q "<" = point_add q (mkPoint 0 0))
    by (intros q; rewrite point_add_zero; reflexivity).
  unfold zmoves.
  destruct (Z.ltb_spec 0 zoffset); [|destruct (Z.ltb_spec zoffset 0)].
  - rewrite (replay_repeat _ _ _ _ Hup) by lia. apply point_add_zero.
  - rewrite (replay_repeat _ _ _ _ Hdown) by lia. apply point_add_zero.
  - reflexivity.
Qed.

Lemma move_returns (grid : Grid) (start end_ : Point) (zoffset : Z)
    (allowjumps : bool) :
  exists keys, move grid start end_ zoffset allowjumps = Ret keys.
Proof.
  unfold move, move_fuel. apply move_loop_total. simpl. unfold distance. lia.
Qed.

(** C1.  For all positions A and B, every z-offset, every jump flag and
    every grid-bounds predicate, [move] returns a keycode list, and
    playing that list from A (one cell per compass keycode, ten cells per
    jump keycode, in emitted order) leaves the cursor exactly at B. *)
Theorem move_replay_reaches_end (grid : Grid)
    (A B : Point) (zoffset : Z) (allowjumps : bool) :
  exists keys : list string,
    move grid A B zoffset allowjumps = Ret keys
    /\ replay keys A = B.
Proof.
  unfold move, move_fuel.
  destruct (move_loop_total grid B allowjumps
              (Z.to_nat (distance A B))
              (mkMoveState A (zmoves zoffset) true)) as [keys Hk].
  { simpl. unfold distance. lia. }
  exists keys. split; [exact Hk|].
  eapply move_loop_replay; [|exact Hk]. simpl. apply replay_zmoves.
Qed.

(** C10.  [move] terminates for every start, end, z-offset, jump flag and
    grid-bounds predicate: once the loop is given as many passes as there
    are cells between the two positions it returns a keycode list, and
    every larger budget returns the same list. *)
Theorem move_terminates (grid : Grid)
    (start end_ : Point) (zoffset : Z) (allowjumps : bool) :
  exists keys : list string, forall extra : nat,
    move_fuel grid (Z.to_nat (distance start end_) + extra)
      start end_ zoffset allowjumps = Ret keys.
Proof.
  unfold move_fuel.
  destruct (move_loop_total grid end_ allowjumps
              (Z.to_nat (distance start end_))
              (mkMoveState start (zmoves zoffset) true)) as [keys Hk].
  { simpl. unfold distance. lia. }
  exists keys. intros extra. apply move_loop_more_fuel, Hk.
Qed.

Example move_overjump_example :
  move sample_grid (mkPoint 0 0) (mkPoint 19 0) 0 true
  = Ret ["[+e]"; "[+e]"; "[w]"].
Proof. reflexivity. Qed.

Example move_diagonal_example :
  move sample_grid (mkPoint 0 0) (mkPoint 12 3) 0 true
  = Ret ["[se]"; "[se]"; "[se]"; "[+e]"; "[w]"].
Proof. reflexivity. Qed.

Example move_at_edge_example :
  move (mkGrid (get_cell sample_grid) (fun p => 9 <? px p))
       (mkPoint 0 0) (mkPoint 9 0) 0 true
  = Ret ["[e]"; "[e]"; "[e]"; "[e]"; "[e]"; "[e]"; "[e]"; "[e]"; "[e]"].
Proof. reflexivity. Qed.

Example move_zlevel_example :
  move sample_grid (mkPoint 0 0) (mkPoint 0 2) (-2) false
  = Ret ["<"; "<"; "[s]"; "[s]"].
Proof. reflexivity. Qed.

(** ** Material selection *)





(** ** Keycode translation *)

Lemma KEY_LIST_key :
  KEY_LIST !! "key" = Some (VTable (list_to_map key_table)).
Proof. reflexivity. Qed.

Lemma KEY_LIST_macro :
  KEY_LIST !! "macro" = Some (VTable (list_to_map macro_table)).
Proof. reflexivity. Qed.

(** Looking a keycode up in the dictionary built from a table finds the
    first pair of the table with that keycode. *)
Lemma list_to_map_table_token (table : list (string * string)) (k : string) :
  (list_to_map table : gmap string string) !! k = table_token table k.
Proof.
  unfold table_token. induction table as [|[k' v] table IH]; simpl.
  - apply lookup_empty.
  - destruct (String.eqb_spec k' k) as [->|Hne].
    + apply lookup_insert_eq.
    + rewrite lookup_insert_ne by exact Hne. exact IH.
Qed.

(** What [translate_keycode] returns in the two modes, read off the
    tables: an absent keycode and a keycode with an empty token both come
    back unchanged. *)
Lemma translate_keycode_key (k : string) :
  translate_keycode k "key" KEY_LIST
  = (Ret (match table_token key_table k with
          | Some token => if String.eqb token EmptyString then k else token
          | None => k
          end), KEY_LIST).
Proof.
  unfold translate_keycode. rewrite KEY_LIST_key, list_to_map_table_token.
  destruct (table_token key_table k); reflexivity.
Qed.

Lemma translate_keycode_macro (k : string) :
  translate_keycode k "macro" KEY_LIST
  = (Ret (match table_token macro_table k with
          | Some token => if String.eqb token EmptyString then k else token
          | None => k
          end), KEY_LIST).
Proof.
  unfold translate_keycode. rewrite KEY_LIST_macro, list_to_map_table_token.
  destruct (table_token macro_table k); reflexivity.
Qed.

(** C6, at the keycode where the code leaves the table: in macro mode the
    table gives ['%'] the empty token, and [translate_keycode] returns
    ['%'] itself. *)
Theorem translate_percent_macro :
  table_token macro_table "%" = Some EmptyString
  /\ translate_keycode "%" "macro" KEY_LIST = (Ret "%", KEY_LIST).
Proof. split; [reflexivity|]. rewrite translate_keycode_macro. reflexivity. Qed.

(** Everywhere else the table's token is what comes back, and a keycode
    the table does not have passes through. *)
Lemma translate_keycode_table (mode : string) (table : list (string * string))
    (k : string) :
  (mode = "key" /\ table = key_table) \/ (mode = "macro" /\ table = macro_table) ->
  (mode, k) <> ("macro", "%") ->
  translate_keycode k mode KEY_LIST
  = (Ret (default k (table_token table k)), KEY_LIST).
Proof.
  intros [[-> ->]|[-> ->]] Hk.
  - rewrite translate_keycode_key.
    destruct (table_token key_table k) as [token|] eqn:E; [|reflexivity].
    simpl. destruct (String.eqb_spec token EmptyString) as [->|]; [|reflexivity].
    exfalso. unfold table_token in E.
    destruct (find _ key_table) as [[k' v]|] eqn:F; [|discriminate].
    apply find_some in F. destruct F as [Hin _]. simpl in E.
    injection E as ->. simpl in Hin.
    repeat (destruct Hin as [Hin|Hin]; [discriminate|]). exact Hin.
  - rewrite translate_keycode_macro.
    destruct (table_token macro_table k) as [token|] eqn:E; [|reflexivity].
    simpl. destruct (String.eqb_spec token EmptyString) as [->|]; [|reflexivity].
    exfalso. unfold table_token in E.
    destruct (find _ macro_table) as [[k' v]|] eqn:F; [|discriminate].
    apply find_some in F. destruct F as [Hin Hk']. simpl in E.
    injection E as ->. simpl in Hin, Hk'. apply String.eqb_eq in Hk'. subst k'.
    repeat (destruct Hin as [Hin|Hin]; [try discriminate|]);
      [injection Hin as <-; congruence | exact Hin].
Qed.

(** One keycode of the key-mode table: its token is found, and the
    inverse of the table leads back to it. *)
Lemma key_round_trip_one (k : string) :
  k ∈ key_table.*1 ->
  exists token,
    translate_keycode k "key" KEY_LIST = (Ret token, KEY_LIST)
    /\ key_inverse token = Some k.
Proof.
  intros Hin. rewrite translate_keycode_key.
  apply list_elem_of_In in Hin. simpl in Hin.
  repeat (destruct Hin as [<-|Hin]; [eexists; split; reflexivity|]).
  destruct Hin.
Qed.

(** C7.  A list of keycodes that are all keys of the key-mode table is
    translated to key-mode tokens without error, and mapping every token
    back through the inverse of the table gives the list again; the
    table's tokens are pairwise different and none is empty. *)
Theorem key_mode_round_trip (keycodes : list string) :
  Forall (fun k => k ∈ key_table.*1) keycodes ->
  (exists tokens,
      translate_keycodes keycodes "key" KEY_LIST = (Ret tokens, KEY_LIST)
      /\ map key_inverse tokens = map Some keycodes)
  /\ NoDup key_table.*2
  /\ EmptyString ∉ key_table.*2.
Proof.
  intros Hall. split; [|split].
  - induction Hall as [|k ks Hk _ IH].
    + exists []. split; reflexivity.
    + destruct (key_round_trip_one k Hk) as (token & Ht & Hinv).
      destruct IH as (tokens & Hts & Hinvs).
      exists (token :: tokens). split.
      * simpl. unfold py_bind. rewrite Ht, Hts. reflexivity.
      * simpl. rewrite Hinv, Hinvs. reflexivity.
  - refine (bool_decide_unpack _ _). vm_compute. exact I.
  - refine (bool_decide_unpack _ _). vm_compute. exact I.
Qed.

Lemma key_mode_round_trip_witness :
  Forall (fun k => k ∈ key_table.*1) ["[+ne]"; "#"; "^"]
  /\ exists tokens,
      translate_keycodes ["[+ne]"; "#"; "^"] "key" KEY_LIST
      = (Ret tokens, KEY_LIST)
      /\ map key_inverse tokens = map Some ["[+ne]"; "#"; "^"].
Proof.
  assert (H : Forall (fun k => k ∈ key_table.*1) ["[+ne]"; "#"; "^"]).
  { repeat constructor; apply list_elem_of_In; simpl; tauto. }
  split; [exact H|]. exact (proj1 (key_mode_round_trip _ H)).
Defined.

Example key_mode_tokens :
  translate_keycodes ["[+ne]"; "#"; "^"] "key" KEY_LIST
  = (Ret ["+9"; "+{Enter}"; "{Esc}"], KEY_LIST).
Proof. reflexivity. Qed.

(** ** The template loop of [plot] *)

(** While a token other than ['cmd'] lies at or after the position of the
    walk, the loop is not left: the list grows as fast as the walk
    advances. *)
Lemma expand_nextcmd_runs_on (fuel : nat) :
  forall (i : nat) (nextcmd codes nextcodes : list string),
    (exists j c, (i <= j)%nat /\ nextcmd !! j = Some c /\ c <> "cmd") ->
    expand_nextcmd fuel i nextcmd codes nextcodes = Timeout.
Proof.
  induction fuel as [|fuel IH]; intros i nextcmd codes nextcodes (j & c & Hij & Hj & Hc).
  - simpl. destruct (nextcmd !! i) eqn:E; [reflexivity|].
    apply lookup_ge_None in E. apply lookup_lt_Some in Hj. lia.
  - simpl. destruct (nextcmd !! i) as [ci|] eqn:E.
    + destruct (String.eqb_spec ci "cmd") as [->|Hne].
      * apply IH. exists j, c. split; [|auto].
        destruct (decide (i = j)) as [->|]; [congruence|lia].
      * apply IH. exists (length nextcmd), ci. split; [|split; [|exact Hne]].
        -- apply lookup_lt_Some in E. lia.
        -- rewrite lookup_app_r by lia. rewrite Nat.sub_diag. reflexivity.
    + apply lookup_ge_None in E. apply lookup_lt_Some in Hj. lia.
Qed.

(** A template made of ['cmd'] only is the one kind that lets the loop
    end: the result is the command body once per placeholder. *)
Lemma expand_nextcmd_all_cmd (n : nat) :
  forall (fuel i : nat) (codes nextcodes : list string),
    (n <= i + fuel)%nat -> (i <= n)%nat ->
    expand_nextcmd fuel i (replicate n "cmd") codes nextcodes
    = Ret (nextcodes ++ concat (replicate (n - i) codes)).
Proof.
  intros fuel. induction fuel as [|fuel IH]; intros i codes nextcodes Hf Hi.
  - assert (i = n) as -> by lia. simpl.
    rewrite (proj2 (lookup_ge_None _ _)) by (rewrite length_replicate; lia).
    rewrite Nat.sub_diag, app_nil_r. reflexivity.
  - simpl. destruct (replicate n "cmd" !! i) as [c|] eqn:E.
    + apply lookup_replicate in E. destruct E as [-> Hlt]. simpl.
      rewrite IH by lia. rewrite <- app_assoc. f_equal.
      replace (n - i)%nat with (S (n - S i)) by lia. reflexivity.
    + apply lookup_ge_None in E. rewrite length_replicate in E.
      assert (i = n) as -> by lia.
      rewrite Nat.sub_diag, app_nil_r. reflexivity.
Qed.

(** No template holding a token other than ['cmd'] is ever expanded. *)
Lemma expand_nextcmd_literal_diverges (fuel : nat) (nextcmd codes : list string)
    (c : string) :
  c ∈ nextcmd -> c <> "cmd" ->
  expand_nextcmd fuel 0 nextcmd codes [] = Timeout.
Proof.
  intros Hin Hc. apply expand_nextcmd_runs_on.
  apply list_elem_of_lookup in Hin. destruct Hin as [j Hj].
  exists j, c. split; [lia|]. split; assumption.
Qed.

(** C3, on the code: with the template [['x'; 'cmd']] the loop is still
    running after any number of passes, whatever the command body is, so
    the literal token never reaches the command-key list. *)
Theorem expand_nextcmd_literal_never_ends (fuel : nat) (codes : list string) :
  expand_nextcmd fuel 0 ["x"; "cmd"] codes [] = Timeout.
Proof.
  apply expand_nextcmd_runs_on.
  exists 0%nat, "x". split; [lia|]. split; [reflexivity|discriminate].
Qed.

(** ** Splitting a command into keycodes *)

Lemma segments_to_codes_empty_segment (cmdsplit : list string) :
  forall codes : list string,
    EmptyString ∈ cmdsplit ->
    segments_to_codes cmdsplit codes = Raise IndexError.
Proof.
  induction cmdsplit as [|k ks IH]; intros codes Hin.
  - inversion Hin.
  - destruct k as [|a k']; [reflexivity|].
    apply elem_of_cons in Hin. destruct Hin as [Hin|Hin]; [discriminate|].
    simpl. destruct (_ || _); apply IH, Hin.
Qed.

Lemma split_bars_head (s : string) :
  head_is_bar s = true -> exists segs, split_bars s = EmptyString :: segs.
Proof.
  induction s as [|a r IH]; simpl; [discriminate|].
  intros Ha. rewrite Ha. destruct r as [|b r']; [eauto|].
  destruct (Ascii.eqb b bar) eqn:Hb; [|eauto].
  apply IH. simpl. exact Hb.
Qed.

Lemma split_bars_last (s : string) :
  last_char s = Some bar ->
  exists seg segs, split_bars s = seg :: segs ++ [EmptyString].
Proof.
  induction s as [|a r IH]; [discriminate|].
  destruct r as [|b r'].
  - intros [= ->]. exists EmptyString, []. reflexivity.
  - intros Hl. destruct (IH Hl) as (seg & segs & Hs).
    change (split_bars (String a (String b r')))
      with (if Ascii.eqb a bar
            then if Ascii.eqb b bar then split_bars (String b r')
                 else EmptyString :: split_bars (String b r')
            else cons_first a (split_bars (String b r'))).
    rewrite Hs. destruct (Ascii.eqb a bar); [destruct (Ascii.eqb b bar)|].
    + eauto.
    + exists EmptyString, (seg :: segs). reflexivity.
    + exists (String a seg), segs. reflexivity.
Qed.

Lemma last_char_app (u v : string) (a : ascii) :
  last_char v = Some a -> last_char (u +:+ v) = Some a.
Proof.
  intros Hv. induction u as [|x u IH]; simpl; [exact Hv|].
  destruct (u +:+ v) eqn:E; [|exact IH].
  simpl in IH. discriminate.
Qed.

Lemma last_char_cons (x : ascii) (v : string) (a : ascii) :
  last_char v = Some a -> last_char (String x v) = Some a.
Proof. apply (last_char_app (String x EmptyString)). Qed.

Lemma string_app_nil (u : string) : u +:+ EmptyString = u.
Proof. induction u as [|x u IH]; simpl; [reflexivity|]. rewrite IH. reflexivity. Qed.

Lemma sub_char_last_other (c : ascii) (rep s : string) (a : ascii) :
  last_char s = Some a -> a <> c ->
  last_char (sub_char c rep s) = Some a.
Proof.
  intros Hl Hne. induction s as [|x r IH]; [discriminate|].
  destruct r as [|y r'].
  - injection Hl as ->. simpl.
    destruct (Ascii.eqb_spec a c); [contradiction|reflexivity].
  - specialize (IH Hl).
    change (sub_char c rep (String x (String y r')))
      with (if Ascii.eqb x c then rep +:+ sub_char c rep (String y r')
            else String x (sub_char c rep (String y r'))).
    destruct (Ascii.eqb x c).
    + apply last_char_app, IH.
    + apply last_char_cons, IH.
Qed.

Lemma sub_char_last_same (c : ascii) (rep s : string) (b : ascii) :
  last_char s = Some c -> last_char rep = Some b ->
  last_char (sub_char c rep s) = Some b.
Proof.
  intros Hl Hrep. induction s as [|x r IH]; [discriminate|].
  destruct r as [|y r'].
  - injection Hl as ->.
    change (last_char (if Ascii.eqb c c then rep +:+ EmptyString
                       else String c EmptyString) = Some b).
    rewrite Ascii.eqb_refl, string_app_nil. exact Hrep.
  - specialize (IH Hl).
    change (sub_char c rep (String x (String y r')))
      with (if Ascii.eqb x c then rep +:+ sub_char c rep (String y r')
            else String x (sub_char c rep (String y r'))).
    destruct (Ascii.eqb x c).
    + apply last_char_app, IH.
    + apply last_char_cons, IH.
Qed.

Lemma sub_plus_bang_last (n : nat) :
  forall (s : string) (a : ascii),
    (String.length s <= n)%nat ->
    last_char s = Some a ->
    last_char (sub_plus_bang s) = Some a
    \/ (a = "!"%char /\ last_char (sub_plus_bang s) = Some bar).
Proof.
  induction n as [|n IH]; intros s a Hlen Hl.
  - destruct s; [discriminate|simpl in Hlen; lia].
  - destruct s as [|x r]; [discriminate|].
    destruct r as [|y r']; [left; exact Hl|].
    change (sub_plus_bang (String x (String y r')))
      with (if Ascii.eqb x "+" && Ascii.eqb y "!"
            then "|+!|" +:+ sub_plus_bang r'
            else String x (sub_plus_bang (String y r'))).
    destruct (Ascii.eqb x "+" && Ascii.eqb y "!") eqn:E.
    + destruct r' as [|z r''].
      * right. apply andb_true_iff in E. destruct E as [_ E].
        apply Ascii.eqb_eq in E. subst y. simpl in Hl. injection Hl as <-.
        split; reflexivity.
      * assert (Hl' : last_char (String z r'') = Some a) by exact Hl.
        destruct (IH (String z r'') a) as [H|[Ha H]];
          [simpl in *; lia | exact Hl' | left | right; split; [exact Ha|]];
          apply last_char_app, H.
    + assert (Hl' : last_char (String y r') = Some a) by exact Hl.
      destruct (IH (String y r') a) as [H|[Ha H]];
        [simpl in *; lia | exact Hl' | left | right; split; [exact Ha|]];
        apply last_char_cons, H.
Qed.

(** A special token at the end of the keystring leaves a bar at the end
    of the string handed to [re.split]. *)
Lemma cmdedit_last_bar (s : string) :
  ends_special s = true -> last_char (cmdedit s) = Some bar.
Proof.
  unfold ends_special, cmdedit. destruct (last_char s) as [a|] eqn:Hl; [|discriminate].
  intros Ha. apply orb_true_iff in Ha. destruct Ha as [Ha|Ha];
    [apply orb_true_iff in Ha; destruct Ha as [Ha|Ha]|];
    apply Ascii.eqb_eq in Ha; subst a.
  - apply sub_char_last_other; [|discriminate].
    apply sub_char_last_other; [|discriminate].
    assert (H : last_char (sub_char "}" "}|" (sub_char "{" "|{" s)) = Some bar).
    { apply sub_char_last_same; [|reflexivity].
      apply sub_char_last_other; [exact Hl|discriminate]. }
    destruct (sub_plus_bang_last _ _ _ (Nat.le_refl _) H) as [H'|[H' _]];
      [exact H'|discriminate].
  - assert (H : last_char (sub_char "}" "}|" (sub_char "{" "|{" s)) = Some "!"%char).
    { apply sub_char_last_other; [|discriminate].
      apply sub_char_last_other; [exact Hl|discriminate]. }
    apply sub_char_last_other; [|discriminate].
    destruct (sub_plus_bang_last _ _ _ (Nat.le_refl _) H) as [H'|[_ H']].
    + apply sub_char_last_same; [exact H'|reflexivity].
    + apply sub_char_last_other; [exact H'|discriminate].
  - assert (H : last_char (sub_char "}" "}|" (sub_char "{" "|{" s)) = Some "^"%char).
    { apply sub_char_last_other; [|discriminate].
      apply sub_char_last_other; [exact Hl|discriminate]. }
    apply sub_char_last_same; [|reflexivity].
    apply sub_char_last_other; [|discriminate].
    destruct (sub_plus_bang_last _ _ _ (Nat.le_refl _) H) as [H'|[H' _]];
      [exact H'|discriminate].
Qed.

Lemma starts_with_inv (pre s : string) :
  starts_with pre s = true -> exists r, s = pre +:+ r.
Proof.
  revert s. induction pre as [|c pre IH]; intros s H.
  - exists s. reflexivity.
  - destruct s as [|a s']; [discriminate|].
    change (Ascii.eqb c a && starts_with pre s' = true) in H.
    apply andb_true_iff in H. destruct H as [Hc Hs].
    apply Ascii.eqb_eq in Hc. subst a.
    destruct (IH _ Hs) as [r ->]. exists r. reflexivity.
Qed.

Lemma sub_char_head_other (c : ascii) (rep : string) (a : ascii) (r : string) :
  a <> c -> sub_char c rep (String a r) = String a (sub_char c rep r).
Proof. intros Hne. simpl. destruct (Ascii.eqb_spec a c); [contradiction|reflexivity]. Qed.

Lemma sub_char_head_same (c : ascii) (rep : string) (r : string) :
  sub_char c rep (String c r) = rep +:+ sub_char c rep r.
Proof. simpl. rewrite Ascii.eqb_refl. reflexivity. Qed.

Lemma sub_plus_bang_head (a : ascii) (r : string) :
  a <> "+"%char -> exists r', sub_plus_bang (String a r) = String a r'.
Proof.
  intros Hne. destruct r as [|b r]; [eexists; reflexivity|].
  change (sub_plus_bang (String a (String b r)))
    with (if Ascii.eqb a "+" && Ascii.eqb b "!"
          then "|+!|" +:+ sub_plus_bang r
          else String a (sub_plus_bang (String b r))).
  destruct (Ascii.eqb_spec a "+"); [contradiction|]. eexists; reflexivity.
Qed.

(** A special token at the start of the keystring leaves a bar at the
    start of the string handed to [re.split]. *)
Lemma cmdedit_head_bar (s : string) :
  begins_special s = true -> head_is_bar (cmdedit s) = true.
Proof.
  unfold begins_special, cmdedit. rewrite !orb_true_iff.
  intros [[[H|H]|H]|H]; apply starts_with_inv in H; destruct H as [r ->]; simpl String.append.
  - rewrite sub_char_head_same. simpl String.append.
    rewrite !(sub_char_head_other "}") by discriminate.
    destruct (sub_plus_bang_head "|" (String "{" (sub_char "}" "}|" (sub_char "{" "|{" r))))
      as [r' ->]; [discriminate|].
    rewrite !sub_char_head_other by discriminate. reflexivity.
  - rewrite !sub_char_head_other by discriminate.
    destruct (sub_plus_bang_head "!" (sub_char "}" "}|" (sub_char "{" "|{" r)))
      as [r' ->]; [discriminate|].
    rewrite sub_char_head_same. simpl String.append.
    rewrite !sub_char_head_other by discriminate. reflexivity.
  - rewrite !sub_char_head_other by discriminate.
    destruct (sub_plus_bang_head "^" (sub_char "}" "}|" (sub_char "{" "|{" r)))
      as [r' ->]; [discriminate|].
    rewrite sub_char_head_other by discriminate.
    rewrite sub_char_head_same. reflexivity.
  - rewrite !sub_char_head_other by discriminate.
    change (sub_plus_bang (String "+" (String "!" ?x)))
      with ("|+!|" +:+ sub_plus_bang x).
    simpl String.append.
    rewrite !sub_char_head_other by discriminate. reflexivity.
Qed.

(** A keystring that is empty, or begins or ends with a special token,
    makes [k[0]] fail on an empty segment. *)
Lemma split_keystring_raises (keystring : string) :
  keystring = EmptyString
  \/ begins_special keystring = true
  \/ ends_special keystring = true ->
  split_keystring_into_keycodes keystring = Raise IndexError.
Proof.
  intros H. unfold split_keystring_into_keycodes.
  apply segments_to_codes_empty_segment.
  destruct H as [->|[H|H]].
  - simpl. apply list_elem_of_here.
  - destruct (split_bars_head _ (cmdedit_head_bar _ H)) as [segs ->].
    apply list_elem_of_here.
  - destruct (split_bars_last _ (cmdedit_last_bar _ H)) as (seg & segs & ->).
    apply elem_of_cons. right. apply elem_of_app. right. apply list_elem_of_here.
Qed.

(** C9.  [split_keystring_into_keycodes] is partial: for the empty
    string, and for every keystring that begins or ends with one of the
    special tokens (a brace token, ['!'], ['^'], ['+!']), the split leaves
    an empty segment whose position 0 is read, which raises the
    out-of-range error. *)
Theorem split_keystring_partial (keystring : string) :
  keystring = EmptyString
  \/ begins_special keystring = true
  \/ ends_special keystring = true ->
  EmptyString ∈ split_bars (cmdedit keystring)
  /\ split_keystring_into_keycodes keystring = Raise IndexError.
Proof.
  intros H. split; [|apply split_keystring_raises, H].
  destruct H as [->|[H|H]].
  - simpl. apply list_elem_of_here.
  - destruct (split_bars_head _ (cmdedit_head_bar _ H)) as [segs ->].
    apply list_elem_of_here.
  - destruct (split_bars_last _ (cmdedit_last_bar _ H)) as (seg & segs & ->).
    apply elem_of_cons. right. apply elem_of_app. right. apply list_elem_of_here.
Qed.

Lemma split_keystring_partial_witness :
  ("{Enter}" = EmptyString
   \/ begins_special "{Enter}" = true
   \/ ends_special "{Enter}" = true)
  /\ split_keystring_into_keycodes "{Enter}" = Raise IndexError.
Proof.
  assert (H : "{Enter}" = EmptyString
              \/ begins_special "{Enter}" = true
              \/ ends_special "{Enter}" = true)
    by (right; left; reflexivity).
  split; [exact H|].
  exact (proj2 (split_keystring_partial "{Enter}" H)).
Defined.

(** It returns only for a keystring that is not empty and whose first
    and last characters belong to no special token. *)
Lemma split_keystring_returns_only_ordinary (keystring : string)
    (codes : list string) :
  split_keystring_into_keycodes keystring = Ret codes ->
  keystring <> EmptyString
  /\ begins_special keystring = false
  /\ ends_special keystring = false.
Proof.
  intros Hret.
  assert (Hno : ~ (keystring = EmptyString
                   \/ begins_special keystring = true
                   \/ ends_special keystring = true)).
  { intros H. rewrite (split_keystring_raises _ H) in Hret. discriminate. }
  split; [tauto|].
  destruct (begins_special keystring), (ends_special keystring); tauto.
Qed.

Example split_keystring_example :
  split_keystring_into_keycodes "d{Enter}ab+!c^x"
  = Ret ["d"; "{Enter}"; "a"; "b"; "+"; "!"; "c"; "^"; "x"].
Proof. reflexivity. Qed.

(** ** The planner's pass over an area *)

Lemma res_bind_ret_inv {A B : Type} (m : res A) (f : A -> res B) (b : B) :
  m ≫= f = Ret b -> exists a, m = Ret a /\ f a = Ret b.
Proof. destruct m as [a| |]; simpl; [eauto|discriminate..]. Qed.


(** Every sizing strategy returns, whatever the two corners are. *)
Lemma getattr_setsize_returns (grid : Grid) (name : string)
    (f : Point -> Point -> res (list string * Point)) (start end_ : Point) :
  getattr_setsize grid name = Ret f ->
  exists keys newpos, f start end_ = Ret (keys, newpos).
Proof.
  unfold getattr_setsize.
  destruct (String.eqb name "setsize_standard");
    [|destruct (String.eqb name "setsize_build");
      [|destruct (String.eqb name "setsize_fixed"); [|discriminate]]];
    intros [= <-].
  - unfold setsize_standard.
    destruct (move_returns grid start end_ 0 true) as [keys ->]. simpl. eauto.
  - unfold setsize_build.
    destruct (move_returns grid start (midpoint start end_) 0 true) as [keys ->].
    simpl. eauto.
  - unfold setsize_fixed.
    destruct (move_returns grid start (midpoint start end_) 0 true) as [keys ->].
    simpl. eauto.
Qed.


Example plot_area_build_example :
  plot_area sample_grid (sample_config "setsize_build") literal_match 5
    sample_start (mkPoint 0 0)
  = Ret (mkPlotState (mkPoint 1 1) "Cw" "C"
           ["C"; "w"; "!"; "[se]"; "[widen]"; "[widen]"; "[heighten]";
            "[heighten]"; "!"; "#"; "[menudown]"; "#"; "[menudown]"; "#";
            "[menudown]"; "#"; "[menudown]"; "#"; "[menudown]"; "#"]).
Proof. vm_compute. reflexivity. Qed.



(** ** Keybindings and macro output *)

(** C5, on the code: one conversion in macro mode leaves entries for the
    keys of the keybinding file in the module-level [KEY_LIST], which had
    none before, and the same conversion run again finds them there and
    writes every bound line twice. *)
Theorem conversion_changes_KEY_LIST :
  let run := convert_keys interface_sample 7 ["!"] "macro" (Some "t") in
  KEY_LIST !! "0:Enter" = None
  /\ snd (run KEY_LIST) !! "0:Enter"
     = Some (VList [String tab (String tab "SELECT")])
  /\ fst (run KEY_LIST)
     = Ret (join_lines ["t"; String tab (String tab "SELECT");
                        String tab "End of group"; "End of macro"]
            +:+ String newline EmptyString)
  /\ fst (run (snd (run KEY_LIST)))
     = Ret (join_lines ["t"; String tab (String tab "SELECT");
                        String tab (String tab "SELECT");
                        String tab "End of group"; "End of macro"]
            +:+ String newline EmptyString).
Proof. vm_compute. repeat split; reflexivity. Qed.

Lemma modes_only_KEY_LIST : modes_only KEY_LIST.
Proof.
  intros k t H. unfold KEY_LIST in H.
  destruct (decide (k = "macro")) as [->|Hm]; [auto|].
  rewrite lookup_insert_ne in H by congruence.
  destruct (decide (k = "key")) as [->|Hk]; [auto|].
  rewrite lookup_insert_ne in H by congruence.
  rewrite lookup_empty in H. discriminate.
Qed.


Lemma bind_key_spec (bind k : string) (g : gmap string value) :
  modes_only g -> k <> "key" -> k <> "macro" ->
  exists g',
    bind_key bind k g = (Ret tt, g')
    /\ modes_only g'
    /\ forall k', g' !! k' = None <-> g !! k' = None /\ ~ (k' = k /\ k <> EmptyString).
Proof.
  intros Hg Hk Hm. unfold bind_key.
  destruct (String.eqb_spec k EmptyString) as [->|Hne].
  { exists g. split; [reflexivity|]. split; [exact Hg|]. intros k'. tauto. }
  assert (Hins : forall l, modes_only (<[k := VList l]> g)
            /\ forall k', <[k := VList l]> g !! k' = None
                          <-> g !! k' = None /\ ~ (k' = k /\ k <> EmptyString)).
  { intros l. split.
    - intros k' t. destruct (decide (k = k')) as [<-|Hkk].
      + rewrite lookup_insert_eq. discriminate.
      + rewrite lookup_insert_ne by exact Hkk. apply Hg.
    - intros k'. destruct (decide (k = k')) as [<-|Hkk].
      + rewrite lookup_insert_eq. split; [discriminate|tauto].
      + rewrite lookup_insert_ne by exact Hkk.
        split; [intros H; split; [exact H|intros [-> _]; congruence]|tauto]. }
  destruct (g !! k) as [[t|l]|] eqn:E.
  - destruct (Hg _ _ E); contradiction.
  - eexists. split; [reflexivity|]. apply Hins.
  - eexists. split; [reflexivity|]. apply Hins.
Qed.

Lemma py_for_bind_key (bind : string) (keys : list string) :
  forall g : gmap string value,
    modes_only g -> "key" ∉ keys -> "macro" ∉ keys ->
    exists g',
      py_for keys (bind_key bind) g = (Ret tt, g')
      /\ modes_only g'
      /\ forall k', g' !! k' = None
                    <-> g !! k' = None
                        /\ k' ∉ filter (fun k => k <> EmptyString) keys.
Proof.
  induction keys as [|k keys IH]; intros g Hg Hk Hm.
  - exists g. split; [reflexivity|]. split; [exact Hg|].
    intros k'. split; [intros H; split; [exact H|apply not_elem_of_nil]|tauto].
  - apply not_elem_of_cons in Hk. destruct Hk as [Hk Hks].
    apply not_elem_of_cons in Hm. destruct Hm as [Hm Hms].
    destruct (bind_key_spec bind k g Hg) as (g1 & H1 & Hg1 & Hl1); [congruence..|].
    destruct (IH g1 Hg1 Hks Hms) as (g2 & H2 & Hg2 & Hl2).
    exists g2. split; [|split; [exact Hg2|]].
    + simpl. unfold py_bind. rewrite H1. exact H2.
    + intros k'. rewrite Hl2, Hl1, filter_cons.
      destruct (decide (k <> EmptyString)) as [Hne|He].
      * rewrite not_elem_of_cons. tauto.
      * tauto.
Qed.

Lemma not_in_filter_nonempty (k : string) (keys : list string) :
  k <> EmptyString ->
  k ∉ filter (fun k => k <> EmptyString) keys -> k ∉ keys.
Proof.
  intros Hne Hk Hin. apply Hk. apply list_elem_of_filter. auto.
Qed.

Lemma bind_group_spec (kb : list string) (g : gmap string value) :
  modes_only g -> kb <> [] ->
  "key" ∉ group_keys kb -> "macro" ∉ group_keys kb ->
  exists g',
    bind_group kb g = (Ret tt, g')
    /\ modes_only g'
    /\ forall k', g' !! k' = None <-> g !! k' = None /\ k' ∉ group_keys kb.
Proof.
  intros Hg Hkb Hk Hm.
  assert (Hskip : exists g', (Ret tt, g) = (Ret tt, g')
            /\ modes_only g'
            /\ forall k', g' !! k' = None <-> g !! k' = None /\ k' ∉ @nil string).
  { exists g. split; [reflexivity|]. split; [exact Hg|].
    intros k'. split; [intros H; split; [exact H|apply not_elem_of_nil]|tauto]. }
  destruct kb as [|kb0 rest]; [contradiction|].
  destruct kb0 as [|a kb0].
  - destruct rest as [|k1 rest]; [exact Hskip|].
    apply py_for_bind_key; [exact Hg|..];
      apply not_in_filter_nonempty; [discriminate|exact Hk|discriminate|exact Hm].
  - apply py_for_bind_key; [exact Hg|..];
      apply not_in_filter_nonempty; [discriminate|exact Hk|discriminate|exact Hm].
Qed.

Lemma py_for_bind_group (groups : list (list string)) :
  forall g : gmap string value,
    modes_only g -> Forall (fun kb => kb <> []) groups ->
    "key" ∉ concat (map group_keys groups) ->
    "macro" ∉ concat (map group_keys groups) ->
    exists g',
      py_for groups bind_group g = (Ret tt, g')
      /\ modes_only g'
      /\ forall k', g' !! k' = None
                    <-> g !! k' = None /\ k' ∉ concat (map group_keys groups).
Proof.
  induction groups as [|kb groups IH]; intros g Hg Hne Hk Hm.
  - exists g. split; [reflexivity|]. split; [exact Hg|].
    intros k'. split; [intros H; split; [exact H|apply not_elem_of_nil]|tauto].
  - simpl in Hk, Hm. apply not_elem_of_app in Hk, Hm.
    destruct Hk as [Hk Hks], Hm as [Hm Hms].
    apply Forall_cons in Hne. destruct Hne as [Hkb Hne].
    destruct (bind_group_spec kb g Hg Hkb Hk Hm) as (g1 & H1 & Hg1 & Hl1).
    destruct (IH g1 Hg1 Hne Hks Hms) as (g2 & H2 & Hg2 & Hl2).
    exists g2. split; [|split; [exact Hg2|]].
    + simpl. unfold py_bind. rewrite H1. exact H2.
    + intros k'. simpl. rewrite Hl2, Hl1, not_elem_of_app. tauto.
Qed.

Lemma cons_first_not_nil (a : ascii) (segs : list string) : cons_first a segs <> [].
Proof. destruct segs; discriminate. Qed.

Lemma split_literal_not_nil (sep s : string) :
  forall skip : nat, split_literal sep skip s <> [].
Proof.
  induction s as [|a r IH]; intros skip; simpl; [discriminate|].
  destruct skip; [|apply IH].
  destruct (starts_with sep (String a r)); [discriminate|apply cons_first_not_nil].
Qed.







Example convert_keys_macro_example :
  fst (convert_keys interface_sample 7 ["!"; "[n]"] "macro" None KEY_LIST)
  = Raise (Fatal "Key '0:8' not bound in interface.txt").
Proof. vm_compute. reflexivity. Qed.

(** * Further properties of the code *)

(** ** Movement: composition, cost and bounds *)

Lemma move_body_prefix (grid : Grid) (end_ : Point) (allowjumps : bool)
    (pre : list string) (s : Point) (keys : list string) (ab : bool) :
  move_body grid end_ allowjumps (mkMoveState s (pre ++ keys) ab)
  = let st' := move_body grid end_ allowjumps (mkMoveState s keys ab) in
    mkMoveState (ms_start st') (pre ++ ms_keys st') (ms_allow_backtrack st').
Proof.
  unfold move_body; simpl.
  repeat match goal with
    | |- context [if ?b then _ else _] => destruct b; simpl
    end; rewrite <- ?app_assoc; reflexivity.
Qed.

Lemma move_loop_prefix (grid : Grid) (end_ : Point) (allowjumps : bool)
    (pre : list string) (fuel : nat) :
  forall (s : Point) (keys : list string) (ab : bool),
    move_loop grid fuel end_ allowjumps (mkMoveState s (pre ++ keys) ab)
    = match move_loop grid fuel end_ allowjumps (mkMoveState s keys ab) with
      | Ret ks => Ret (pre ++ ks)
      | Raise e => Raise e
      | Timeout => Timeout
      end.
Proof.
  induction fuel as [|fuel IH]; intros s keys ab; simpl;
    destruct (point_eqb s end_); try reflexivity.
  rewrite move_body_prefix.
  destruct (move_body grid end_ allowjumps (mkMoveState s keys ab)) as [s' k' ab'].
  simpl. apply IH.
Qed.

(** X1.  The z-level keys come first and do not affect the rest: the
    keys of [move] with a z-offset are the z-level keys followed by the
    keys of the same move without z-offset. *)
Theorem move_zoffset_prefix (grid : Grid) (start end_ : Point) (zoffset : Z)
    (allowjumps : bool) :
  exists planar : list string,
    move grid start end_ 0 allowjumps = Ret planar
    /\ move grid start end_ zoffset allowjumps = Ret (zmoves zoffset ++ planar).
Proof.
  destruct (move_returns grid start end_ 0 allowjumps) as [planar Hp].
  exists planar. split; [exact Hp|].
  unfold move, move_fuel in *.
  rewrite <- (app_nil_r (zmoves zoffset)) at 1.
  rewrite move_loop_prefix. change (zmoves 0) with (@nil string) in Hp.
  rewrite Hp. reflexivity.
Qed.

Lemma list_mul_length {A : Type} (l : list A) (n : Z) :
  Z.of_nat (length (list_mul l n)) = Z.of_nat (length l) * Z.max 0 n.
Proof.
  unfold list_mul.
  replace (Z.max 0 n) with (Z.of_nat (Z.to_nat n)) by lia.
  induction (Z.to_nat n) as [|m IH]; simpl; [lia|].
  rewrite length_app. lia.
Qed.

(** A pass never adds more keys than it brings the cursor closer, counted
    in single steps; without jumps it adds exactly as many. *)
Lemma move_body_cost (grid : Grid) (end_ : Point) (allowjumps : bool)
    (st : MoveState) :
  ms_start st <> end_ ->
  let st' := move_body grid end_ allowjumps st in
  Z.of_nat (length (ms_keys st')) + steps_apart (ms_start st') end_
    <= Z.of_nat (length (ms_keys st)) + steps_apart (ms_start st) end_
  /\ (allowjumps = false ->
      Z.of_nat (length (ms_keys st')) + steps_apart (ms_start st') end_
      = Z.of_nat (length (ms_keys st)) + steps_apart (ms_start st) end_).
Proof.
  destruct st as [[sx sy] keys ab], end_ as [ex ey]; simpl; intros Hne.
  assert (Hd : sx <> ex \/ sy <> ey).
  { destruct (Z.eq_dec sx ex), (Z.eq_dec sy ey); subst; auto; congruence. }
  unfold move_body, get_direction, steps_apart; simpl.
  set (dx := Z.abs (sx - ex)). set (dy := Z.abs (sy - ey)).
  set (steps := if dx =? 0 then dy else if dy =? 0 then dx else Z.min dx dy).
  pose proof (Z.div_mod steps 10 ltac:(lia)) as Hdm.
  pose proof (Z.mod_pos_bound steps 10 ltac:(lia)) as Hmb.
  assert (Hsteps : (dx = 0 /\ steps = dy) \/ (dx <> 0 /\ dy = 0 /\ steps = dx)
                   \/ (dx <> 0 /\ dy <> 0 /\ steps = Z.min dx dy)).
  { subst steps. destruct (Z.eqb_spec dx 0); [auto|].
    destruct (Z.eqb_spec dy 0); auto. }
  clearbody steps. subst dx dy.
  destruct allowjumps; simpl;
  destruct (Z.compare_spec ex sx), (Z.compare_spec ey sy);
    repeat match goal with
    | |- context [if ?b then _ else _] =>
        match b with
        | context [Z.ltb ?a ?c] => destruct (Z.ltb_spec a c)
        | context [Z.leb ?a ?c] => destruct (Z.leb_spec a c)
        | _ => destruct b
        end; simpl
    end; simpl;
    rewrite ?length_app; rewrite ?Nat2Z.inj_add; rewrite ?list_mul_length; simpl;
    try lia.
Qed.

Lemma steps_apart_same (p : Point) : steps_apart p p = 0.
Proof. unfold steps_apart. lia. Qed.

Lemma move_loop_cost (grid : Grid) (end_ : Point) (allowjumps : bool)
    (fuel : nat) :
  forall (st : MoveState) (keys : list string),
    move_loop grid fuel end_ allowjumps st = Ret keys ->
    Z.of_nat (length keys)
      <= Z.of_nat (length (ms_keys st)) + steps_apart (ms_start st) end_
    /\ (allowjumps = false ->
        Z.of_nat (length keys)
        = Z.of_nat (length (ms_keys st)) + steps_apart (ms_start st) end_).
Proof.
  induction fuel as [|fuel IH]; intros st keys; simpl;
    destruct (point_eqb (ms_start st) end_) eqn:E; try discriminate.
  - apply point_eqb_eq in E. intros [= <-]. rewrite E, steps_apart_same. lia.
  - apply point_eqb_eq in E. intros [= <-]. rewrite E, steps_apart_same. lia.
  - apply point_eqb_neq in E. intros H. apply IH in H.
    pose proof (move_body_cost grid end_ allowjumps st E) as Hc.
    simpl in Hc. split; [lia|]. intros Hj.
    destruct H as [_ H], Hc as [_ Hc]. rewrite (H Hj), (Hc Hj). reflexivity.
Qed.

Lemma zmoves_length (zoffset : Z) :
  Z.of_nat (length (zmoves zoffset)) = Z.abs zoffset.
Proof.
  unfold zmoves.
  destruct (Z.ltb_spec 0 zoffset); [|destruct (Z.ltb_spec zoffset 0)];
    rewrite ?list_mul_length; simpl; lia.
Qed.

(** X2.  Jumps never cost keys: the list [move] returns has at most as
    many keycodes as the z-offset has levels plus the number of single
    steps (diagonal ones allowed) between the two positions. *)
Theorem move_never_longer_than_stepping (grid : Grid) (start end_ : Point)
    (zoffset : Z) (allowjumps : bool) :
  exists keys : list string,
    move grid start end_ zoffset allowjumps = Ret keys
    /\ Z.of_nat (length keys) <= Z.abs zoffset + steps_apart start end_.
Proof.
  destruct (move_returns grid start end_ zoffset allowjumps) as [keys Hk].
  exists keys. split; [exact Hk|].
  apply move_loop_cost in Hk. destruct Hk as [Hk _]. simpl in Hk.
  rewrite zmoves_length in Hk. exact Hk.
Qed.

Lemma single_key_not_jump (d : Direction) :
  is_jump_key ("[" +:+ compass d +:+ "]") = false.
Proof. destruct d; reflexivity. Qed.

Lemma Forall_list_mul {A : Type} (P : A -> Prop) (l : list A) (n : Z) :
  Forall P l -> Forall P (list_mul l n).
Proof.
  intros Hl. unfold list_mul. induction (Z.to_nat n) as [|m IH]; simpl.
  - constructor.
  - apply Forall_app. split; assumption.
Qed.

Lemma move_loop_no_jump_keys (grid : Grid) (end_ : Point) (fuel : nat) :
  forall (st : MoveState) (keys : list string),
    Forall (fun k => is_jump_key k = false) (ms_keys st) ->
    move_loop grid fuel end_ false st = Ret keys ->
    Forall (fun k => is_jump_key k = false) keys.
Proof.
  induction fuel as [|fuel IH]; intros st keys Hst; simpl;
    destruct (point_eqb (ms_start st) end_); try discriminate;
    try (intros [= <-]; exact Hst).
  apply IH. unfold move_body. simpl.
  apply Forall_app. split; [exact Hst|].
  apply Forall_list_mul. constructor; [apply single_key_not_jump|constructor].
Qed.

(** X3.  With jumps disallowed [move] single-steps all the way: the list
    holds no jump keycode, and its length is the number of levels of the
    z-offset plus the larger of the two coordinate differences. *)
Theorem move_without_jumps (grid : Grid) (start end_ : Point) (zoffset : Z) :
  exists keys : list string,
    move grid start end_ zoffset false = Ret keys
    /\ Forall (fun k => is_jump_key k = false) keys
    /\ Z.of_nat (length keys) = Z.abs zoffset + steps_apart start end_.
Proof.
  destruct (move_returns grid start end_ zoffset false) as [keys Hk].
  exists keys. split; [exact Hk|]. split.
  - unfold move, move_fuel in Hk.
    apply move_loop_no_jump_keys in Hk; [exact Hk|]. simpl.
    unfold zmoves. repeat case_match; try constructor;
      apply Forall_list_mul; repeat constructor.
  - apply move_loop_cost in Hk. destruct Hk as [_ Hk]. simpl in Hk.
    rewrite zmoves_length in Hk. apply Hk. reflexivity.
Qed.

Lemma inside_spec (w h : Z) (p : Point) :
  inside w h p = true <-> (0 <= px p < w /\ 0 <= py p < h).
Proof.
  unfold inside. rewrite !andb_true_iff, !Z.leb_le, !Z.ltb_lt. tauto.
Qed.

Lemma replay_path_app (l1 l2 : list string) (p : Point) :
  replay_path (l1 ++ l2) p = replay_path l1 p ++ replay_path l2 (replay l1 p).
Proof.
  revert p. induction l1 as [|k l1 IH]; intros p; simpl; [reflexivity|].
  rewrite IH. reflexivity.
Qed.

Lemma replay_path_repeat (P : Point -> Prop) (k : string) (v : Point) (n : Z)
    (p : Point) :
  (forall q, replay_key q k = point_add q v) ->
  (forall i, 1 <= i <= n -> P (point_add p (point_mul v i))) ->
  Forall P (replay_path (list_mul [k] n) p).
Proof.
  intros Hk HP. unfold list_mul.
  assert (Hm : forall i, 1 <= i <= Z.of_nat (Z.to_nat n) ->
                         P (point_add p (point_mul v i)))
    by (intros i Hi; apply HP; lia).
  clear HP. revert p Hm. generalize (Z.to_nat n) as m.
  induction m as [|m IH]; intros p HP; simpl; [constructor|].
  rewrite Hk. constructor.
  - replace (point_add p v) with (point_add p (point_mul v 1)).
    + apply HP. lia.
    + destruct p, v; unfold point_add, point_mul; simpl. f_equal; lia.
  - apply IH. intros i Hi.
    replace (point_add (point_add p v) (point_mul v i))
      with (point_add p (point_mul v (i + 1))).
    + apply HP. lia.
    + destruct p, v; unfold point_add, point_mul; simpl. f_equal; lia.
Qed.

(** On a rectangular sheet a pass that starts inside, towards a target
    inside, keeps the cursor inside at every keycode it adds. *)
Lemma move_body_inside (grid : Grid) (w h : Z) (end_ : Point)
    (allowjumps : bool) (st : MoveState) (a : Point) :
  (forall p, is_out_of_bounds grid p = negb (inside w h p)) ->
  inside w h end_ = true ->
  ms_start st <> end_ ->
  replay (ms_keys st) a = ms_start st ->
  inside w h (ms_start st) = true ->
  Forall (fun p => inside w h p = true) (replay_path (ms_keys st) a) ->
  inside w h (ms_start (move_body grid end_ allowjumps st)) = true
  /\ Forall (fun p => inside w h p = true)
            (replay_path (ms_keys (move_body grid end_ allowjumps st)) a).
Proof.
  destruct st as [[sx sy] keys ab], end_ as [ex ey]; simpl.
  intros Hrect He Hne Hinv Hs Hpath.
  assert (Hd : sx <> ex \/ sy <> ey).
  { destruct (Z.eq_dec sx ex), (Z.eq_dec sy ey); subst; auto; congruence. }
  apply inside_spec in He, Hs. simpl in He, Hs.
  unfold move_body; simpl.
  set (d := get_direction (mkPoint sx sy) (mkPoint ex ey)).
  set (dx := Z.abs (sx - ex)). set (dy := Z.abs (sy - ey)).
  set (steps := if dx =? 0 then dy else if dy =? 0 then dx else Z.min dx dy).
  pose proof (Z.div_mod steps 10 ltac:(lia)) as Hdm.
  pose proof (Z.mod_pos_bound steps 10 ltac:(lia)) as Hmb.
  assert (Hsteps : (dx = 0 /\ steps = dy) \/ (dx <> 0 /\ dy = 0 /\ steps = dx)
                   \/ (dx <> 0 /\ dy <> 0 /\ steps = Z.min dx dy)).
  { subst steps. destruct (Z.eqb_spec dx 0); [auto|].
    destruct (Z.eqb_spec dy 0); auto. }
  clearbody steps. subst dx dy.
  pose proof (fun n p => replay_repeat _ _ n p (replay_key_single d)) as single.
  pose proof (fun n p => replay_repeat _ _ n p (replay_key_jump d)) as jump.
  assert (Hdelta : delta d = mkPoint (Z.sgn (ex - sx)) (Z.sgn (ey - sy))).
  { subst d. unfold get_direction. simpl.
    destruct (Z.compare_spec ex sx), (Z.compare_spec ey sy); simpl; f_equal; lia. }
  assert (Hsx : Z.sgn (ex - sx) = 1 /\ sx < ex \/ Z.sgn (ex - sx) = 0 /\ sx = ex
                \/ Z.sgn (ex - sx) = -1 /\ ex < sx) by lia.
  assert (Hsy : Z.sgn (ey - sy) = 1 /\ sy < ey \/ Z.sgn (ey - sy) = 0 /\ sy = ey
                \/ Z.sgn (ey - sy) = -1 /\ ey < sy) by lia.
  revert Hsx Hsy. generalize dependent (Z.sgn (ex - sx)).
  generalize dependent (Z.sgn (ey - sy)). intros my mx Hdelta Hsx Hsy.
  repeat match goal with
    | |- context [if ?b then _ else _] =>
        match b with
        | Z.ltb ?x ?y => destruct (Z.ltb_spec x y)
        | Z.leb ?x ?y => destruct (Z.leb_spec x y)
        | is_out_of_bounds _ _ => destruct b eqn:Hoob
        | _ => destruct b eqn:?
        end; simpl
    end;
    try (rewrite Hrect in Hoob; apply negb_false_iff, inside_spec in Hoob;
         rewrite Hdelta in Hoob; simpl in Hoob);
    (split;
     [ apply inside_spec; rewrite Hdelta; simpl; nia
     | rewrite ?replay_path_app, ?Forall_app; repeat split; try exact Hpath;
       rewrite ?replay_app, ?Hinv, ?single by lia;
       [> apply (replay_path_repeat _ _ _ _ _ (replay_key_single d))
        || apply (replay_path_repeat _ _ _ _ _ (replay_key_jump d)) ..];
       intros i Hi; apply inside_spec; rewrite Hdelta; simpl; nia ]).
Qed.

Lemma move_loop_inside (grid : Grid) (w h : Z) (end_ : Point)
    (allowjumps : bool) (a : Point) (fuel : nat) :
  (forall p, is_out_of_bounds grid p = negb (inside w h p)) ->
  inside w h end_ = true ->
  forall (st : MoveState) (keys : list string),
    replay (ms_keys st) a = ms_start st ->
    inside w h (ms_start st) = true ->
    Forall (fun p => inside w h p = true) (replay_path (ms_keys st) a) ->
    move_loop grid fuel end_ allowjumps st = Ret keys ->
    Forall (fun p => inside w h p = true) (replay_path keys a).
Proof.
  intros Hrect He. induction fuel as [|fuel IH]; intros st keys Hinv Hs Hpath; simpl;
    destruct (point_eqb (ms_start st) end_) eqn:E; try discriminate;
    try (intros [= <-]; exact Hpath).
  apply point_eqb_neq in E.
  destruct (move_body_inside grid w h end_ allowjumps st a Hrect He E Hinv Hs Hpath)
    as [Hs' Hpath'].
  apply IH; [apply move_body_replay, Hinv|exact Hs'|exact Hpath'].
Qed.

(** X4.  On a rectangular sheet [move] never takes the cursor off the
    sheet: when both positions are on it, every position the cursor
    passes through while the returned keycodes are played, one by one,
    from the start, is in bounds. *)
Theorem move_stays_in_bounds (grid : Grid) (w h : Z) (start end_ : Point)
    (zoffset : Z) (allowjumps : bool) (keys : list string) :
  (forall p, is_out_of_bounds grid p = negb (inside w h p)) ->
  inside w h start = true ->
  inside w h end_ = true ->
  move grid start end_ zoffset allowjumps = Ret keys ->
  Forall (fun p => is_out_of_bounds grid p = false) (replay_path keys start).
Proof.
  intros Hrect Hs He Hk.
  assert (Hin : Forall (fun p => inside w h p = true) (replay_path keys start));
    [|eapply Forall_impl; [exact Hin|];
      intros p Hp; simpl; rewrite Hrect, Hp; reflexivity].
  unfold move, move_fuel in Hk.
  eapply (move_loop_inside grid w h end_ allowjumps start _ Hrect He); [..|exact Hk];
    simpl.
  - apply replay_zmoves.
  - exact Hs.
  - assert (Hz : forall q, point_add q (point_mul (mkPoint 0 0) 1) = q)
      by (intros [x y]; unfold point_add, point_mul; simpl; f_equal; lia).
    unfold zmoves. repeat case_match; try constructor.
    + apply (replay_path_repeat _ ">" (mkPoint 0 0));
        [intros q; rewrite point_add_zero; reflexivity|].
      intros i _. destruct start as [x y]. unfold point_add, point_mul; simpl.
      replace (x + 0 * i) with x by lia. replace (y + 0 * i) with y by lia.
      exact Hs.
    + apply (replay_path_repeat _ "<" (mkPoint 0 0));
        [intros q; rewrite point_add_zero; reflexivity|].
      intros i _. destruct start as [x y]. unfold point_add, point_mul; simpl.
      replace (x + 0 * i) with x by lia. replace (y + 0 * i) with y by lia.
      exact Hs.
Qed.

Lemma move_stays_in_bounds_witness :
  (forall p, is_out_of_bounds
               (mkGrid (get_cell sample_grid) (fun p => negb (inside 20 20 p))) p
             = negb (inside 20 20 p))
  /\ inside 20 20 (mkPoint 0 1) = true
  /\ inside 20 20 (mkPoint 19 0) = true
  /\ move (mkGrid (get_cell sample_grid) (fun p => negb (inside 20 20 p)))
          (mkPoint 0 1) (mkPoint 19 0) 0 true
     = Ret ["[ne]"; "[e]"; "[e]"; "[e]"; "[e]"; "[e]"; "[e]"; "[e]"; "[e]"; "[+e]"]
  /\ Forall (fun p => is_out_of_bounds
                        (mkGrid (get_cell sample_grid)
                                (fun p => negb (inside 20 20 p))) p = false)
            (replay_path
               ["[ne]"; "[e]"; "[e]"; "[e]"; "[e]"; "[e]"; "[e]"; "[e]"; "[e]"; "[+e]"]
               (mkPoint 0 1)).
Proof.
  assert (H1 : forall p, is_out_of_bounds
               (mkGrid (get_cell sample_grid) (fun p => negb (inside 20 20 p))) p
             = negb (inside 20 20 p)) by reflexivity.
  assert (H2 : inside 20 20 (mkPoint 0 1) = true) by reflexivity.
  assert (H3 : inside 20 20 (mkPoint 19 0) = true) by reflexivity.
  assert (H4 : move (mkGrid (get_cell sample_grid) (fun p => negb (inside 20 20 p)))
                 (mkPoint 0 1) (mkPoint 19 0) 0 true
               = Ret ["[ne]"; "[e]"; "[e]"; "[e]"; "[e]"; "[e]"; "[e]"; "[e]"; "[e]"; "[+e]"])
    by reflexivity.
  repeat (split; [assumption|]).
  exact (move_stays_in_bounds _ 20 20 _ _ 0 true _ H1 H2 H3 H4).
Defined.

(** ** Sizing strategies *)

Lemma move_replay_end (grid : Grid) (start end_ : Point) (zoffset : Z)
    (allowjumps : bool) (keys : list string) :
  move grid start end_ zoffset allowjumps = Ret keys ->
  replay keys start = end_.
Proof.
  unfold move, move_fuel. intros H.
  eapply move_loop_replay; [|exact H]. simpl. apply replay_zmoves.
Qed.

Lemma replay_still_keys (k : string) (n : Z) (p : Point) :
  key_motion k = None -> replay (list_mul [k] n) p = p.
Proof.
  intros Hk. unfold list_mul. induction (Z.to_nat n) as [|m IH]; [reflexivity|].
  simpl. unfold replay in *. simpl. unfold replay_key at 2. rewrite Hk. exact IH.
Qed.

(** X5.  The position a sizing strategy reports is the position its keys
    leave the cursor at: playing the keycodes it returns from the start
    corner ends on the reported position (the widen and heighten keys of
    the build strategy do not move the cursor). *)
Theorem setsize_replay_newpos (grid : Grid) (name : string)
    (f : Point -> Point -> res (list string * Point))
    (start end_ : Point) (keys : list string) (newpos : Point) :
  getattr_setsize grid name = Ret f ->
  f start end_ = Ret (keys, newpos) ->
  replay keys start = newpos.
Proof.
  unfold getattr_setsize.
  destruct (String.eqb name "setsize_standard");
    [|destruct (String.eqb name "setsize_build");
      [|destruct (String.eqb name "setsize_fixed"); [|discriminate]]];
    intros [= <-] H.
  - unfold setsize_standard in H.
    apply res_bind_ret_inv in H. destruct H as (k & Hk & [= <- <-]).
    eapply move_replay_end, Hk.
  - unfold setsize_build in H.
    apply res_bind_ret_inv in H. destruct H as (k & Hk & [= <- <-]).
    rewrite !replay_app, !replay_still_keys by reflexivity.
    eapply move_replay_end, Hk.
  - unfold setsize_fixed in H.
    apply res_bind_ret_inv in H. destruct H as (k & Hk & [= <- <-]).
    eapply move_replay_end, Hk.
Qed.

Lemma setsize_replay_newpos_witness :
  getattr_setsize sample_grid "setsize_build" = Ret (setsize_build sample_grid)
  /\ setsize_build sample_grid (mkPoint 0 0) (mkPoint 4 2)
     = Ret (["[se]"; "[e]"; "[widen]"; "[widen]"; "[widen]"; "[widen]";
             "[heighten]"; "[heighten]"], mkPoint 2 1)
  /\ replay ["[se]"; "[e]"; "[widen]"; "[widen]"; "[widen]"; "[widen]";
             "[heighten]"; "[heighten]"] (mkPoint 0 0)
     = mkPoint 2 1.
Proof.
  assert (H1 : getattr_setsize sample_grid "setsize_build"
               = Ret (setsize_build sample_grid)) by reflexivity.
  assert (H2 : setsize_build sample_grid (mkPoint 0 0) (mkPoint 4 2)
               = Ret (["[se]"; "[e]"; "[widen]"; "[widen]"; "[widen]"; "[widen]";
                       "[heighten]"; "[heighten]"], mkPoint 2 1)) by reflexivity.
  split; [exact H1|]. split; [exact H2|].
  exact (setsize_replay_newpos _ _ _ _ _ _ _ H1 H2).
Defined.

Lemma midpoint_same (p : Point) : midpoint p p = p.
Proof.
  destruct p as [x y]. unfold midpoint. simpl.
  replace (x + x) with (x * 2) by lia. replace (y + y) with (y * 2) by lia.
  rewrite !Z.div_mul by lia. reflexivity.
Qed.

Lemma move_same (grid : Grid) (p : Point) (allowjumps : bool) :
  move grid p p 0 allowjumps = Ret [].
Proof.
  unfold move, move_fuel.
  assert (E : point_eqb p p = true) by (apply point_eqb_eq; reflexivity).
  destruct (Z.to_nat (distance p p)); simpl; rewrite E; reflexivity.
Qed.

(** X6.  Sizing an area of one cell presses no key: when the two corners
    coincide, each of the three strategies returns the empty keycode list
    and reports the corner itself as the cursor. *)
Theorem setsize_one_cell (grid : Grid) (name : string)
    (f : Point -> Point -> res (list string * Point)) (p : Point) :
  getattr_setsize grid name = Ret f ->
  f p p = Ret ([], p).
Proof.
  unfold getattr_setsize.
  destruct (String.eqb name "setsize_standard");
    [|destruct (String.eqb name "setsize_build");
      [|destruct (String.eqb name "setsize_fixed"); [|discriminate]]];
    intros [= <-].
  - unfold setsize_standard. rewrite move_same. reflexivity.
  - unfold setsize_build. rewrite midpoint_same, move_same. simpl.
    unfold area_width, area_height. simpl.
    replace (Z.abs (px p - px p) + 1 - 1) with 0 by lia.
    replace (Z.abs (py p - py p) + 1 - 1) with 0 by lia.
    reflexivity.
  - unfold setsize_fixed. rewrite midpoint_same, move_same. reflexivity.
Qed.

Lemma setsize_one_cell_witness :
  getattr_setsize sample_grid "setsize_fixed" = Ret (setsize_fixed sample_grid)
  /\ setsize_fixed sample_grid (mkPoint 3 4) (mkPoint 3 4) = Ret ([], mkPoint 3 4).
Proof.
  assert (H1 : getattr_setsize sample_grid "setsize_fixed"
               = Ret (setsize_fixed sample_grid)) by reflexivity.
  split; [exact H1|].
  exact (setsize_one_cell _ _ _ (mkPoint 3 4) H1).
Defined.

(** ** The planner's templates and state *)

Lemma forallb_cmd_replicate (nextcmd : list string) :
  forallb (fun c => String.eqb c "cmd") nextcmd = true ->
  nextcmd = replicate (length nextcmd) "cmd".
Proof.
  induction nextcmd as [|c l IH]; [reflexivity|].
  cbn [forallb length replicate].
  intros H. apply andb_true_iff in H. destruct H as [Hc Hl].
  apply String.eqb_eq in Hc. subst c. f_equal. apply IH, Hl.
Qed.

Lemma forallb_cmd_false (nextcmd : list string) :
  forallb (fun c => String.eqb c "cmd") nextcmd = false ->
  exists c, c ∈ nextcmd /\ c <> "cmd".
Proof.
  induction nextcmd as [|c l IH]; [discriminate|].
  cbn [forallb].
  intros H. apply andb_false_iff in H. destruct H as [Hc|Hl].
  - exists c. split; [apply list_elem_of_here|].
    apply String.eqb_neq in Hc. exact Hc.
  - destruct (IH Hl) as (c' & Hin & Hne). exists c'.
    split; [apply list_elem_of_further, Hin|exact Hne].
Qed.

(** X7.  The template loop of [plot] ends exactly for templates made of
    ['cmd'] placeholders only: such a template yields the command body
    once per placeholder, within as many passes as it has entries; any
    other template keeps the loop running for ever. *)
Theorem expand_nextcmd_ends_only_for_placeholders (nextcmd codes : list string) :
  if forallb (fun c => String.eqb c "cmd") nextcmd
  then expand_nextcmd (length nextcmd) 0 nextcmd codes []
       = Ret (concat (replicate (length nextcmd) codes))
  else forall fuel : nat, expand_nextcmd fuel 0 nextcmd codes [] = Timeout.
Proof.
  destruct (forallb (fun c => String.eqb c "cmd") nextcmd) eqn:E.
  - rewrite (forallb_cmd_replicate _ E) at 2.
    rewrite expand_nextcmd_all_cmd by lia.
    rewrite Nat.sub_0_r. reflexivity.
  - intros fuel. destruct (forallb_cmd_false _ E) as (c & Hin & Hne).
    eapply expand_nextcmd_literal_diverges; eassumption.
Qed.

Lemma substitute_pattern_app (subs : gmap string (list string))
    (pattern : list string) :
  forall newkeys : list string,
    substitute_pattern subs pattern newkeys
    = newkeys ++ substitute_pattern subs pattern [].
Proof.
  induction pattern as [|p ps IH]; intros newkeys; simpl.
  - rewrite app_nil_r. reflexivity.
  - destruct (subs !! p) as [v|].
    + rewrite IH, (IH v), <- app_assoc. reflexivity.
    + rewrite IH, (IH [p]), <- app_assoc. reflexivity.
Qed.

Lemma submenu_body_settled (re_match : string -> string -> bool)
    (command : string) (ms ms' : MenuState) (k : string) :
  submenu_settled command ms ->
  submenu_body re_match command ms k = Ret ms' ->
  submenu_settled command ms'.
Proof.
  intros Hs. unfold submenu_body.
  destruct (re_match k command); [|intros [= <-]; exact Hs].
  destruct command as [|c rest]; [discriminate|].
  destruct (String.eqb (mn_last_submenu ms) EmptyString);
    [|destruct (String.eqb_spec (mn_last_submenu ms) (String c EmptyString)) as [E|_]];
    simpl; intros [= <-]; right; exists c, rest; simpl; auto.
Qed.

Lemma submenu_loop_settled (re_match : string -> string -> bool)
    (command : string) (submenukeys : list string) :
  forall ms ms' : MenuState,
    submenu_settled command ms ->
    submenu_loop re_match command submenukeys ms = Ret ms' ->
    submenu_settled command ms'.
Proof.
  induction submenukeys as [|k ks IH]; intros ms ms' Hs; simpl.
  - intros [= <-]. exact Hs.
  - intros H. apply res_bind_ret_inv in H. destruct H as (ms1 & H1 & H2).
    eapply IH; [|exact H2]. eapply submenu_body_settled; eassumption.
Qed.

Lemma no_submenu_last (command : string) (ms : MenuState) :
  submenu_settled command ms ->
  mn_last_submenu (no_submenu command ms) = EmptyString
  \/ exists c rest,
       command = String c rest /\ rest <> EmptyString
       /\ mn_last_submenu (no_submenu command ms) = String c EmptyString.
Proof.
  unfold no_submenu. intros [Hn|(c & rest & Hc & Hl & Hj)].
  - rewrite Hn. left. reflexivity.
  - rewrite Hj. destruct rest as [|b rest']; [left; reflexivity|].
    right. exists c, (String b rest'). split; [exact Hc|]. split; [discriminate|exact Hl].
Qed.

Lemma plot_area_keeps_keys (grid : Grid) (buildconfig : BuildConfig)
    (re_match : string -> string -> bool) (fuel : nat)
    (st : PlotState) (pos : Point) (st' : PlotState) :
  plot_area grid buildconfig re_match fuel st pos = Ret st' ->
  exists newkeys, pl_keys st' = pl_keys st ++ newkeys.
Proof.
  unfold plot_area. intros H.
  destruct (String.eqb (command (get_cell grid pos)) (pl_last_command st)).
  all: apply res_bind_ret_inv in H; destruct H as (moveto & _ & H).
  all: apply res_bind_ret_inv in H; destruct H as (f & _ & H).
  all: apply res_bind_ret_inv in H; destruct H as ([setsize newpos] & _ & H).
  all: apply res_bind_ret_inv in H; destruct H as (subs & _ & H).
  all: apply res_bind_ret_inv in H; destruct H as (ms & _ & H).
  all: apply res_bind_ret_inv in H; destruct H as (codes & _ & H).
  all: apply res_bind_ret_inv in H; destruct H as (nextcodes & _ & H).
  all: injection H as <-; simpl; eauto.
Qed.

(** X8.  What a pass of [plot] over an area leaves in the planner's
    state: the last command is the area's command; the active submenu is
    none, or it is the first character of a command that has more
    characters after it; and the keys emitted before the pass are kept,
    in front of the keys of the pass. *)
Theorem plot_area_state (grid : Grid) (buildconfig : BuildConfig)
    (re_match : string -> string -> bool) (fuel : nat)
    (st : PlotState) (pos : Point) (st' : PlotState) :
  plot_area grid buildconfig re_match fuel st pos = Ret st' ->
  pl_last_command st' = command (get_cell grid pos)
  /\ (pl_last_submenu st' = EmptyString
      \/ exists c rest,
           command (get_cell grid pos) = String c rest
           /\ rest <> EmptyString
           /\ pl_last_submenu st' = String c EmptyString)
  /\ exists newkeys, pl_keys st' = pl_keys st ++ newkeys.
Proof.
  unfold plot_area. intros H.
  destruct (String.eqb_spec (command (get_cell grid pos)) (pl_last_command st))
    as [Heq|_].
  all: apply res_bind_ret_inv in H; destruct H as (moveto & _ & H).
  all: apply res_bind_ret_inv in H; destruct H as (f & _ & H).
  all: apply res_bind_ret_inv in H; destruct H as ([setsize newpos] & _ & H).
  all: apply res_bind_ret_inv in H; destruct H as (subs & _ & H).
  all: apply res_bind_ret_inv in H; destruct H as (ms & Hms & H).
  all: apply res_bind_ret_inv in H; destruct H as (codes & _ & H).
  all: apply res_bind_ret_inv in H; destruct H as (nextcodes & _ & H).
  all: injection H as <-; simpl.
  all: apply submenu_loop_settled in Hms; [|left; reflexivity].
  all: split; [auto|]; split; [apply no_submenu_last, Hms|eauto].
Qed.

Lemma plot_area_state_witness :
  plot_area sample_grid (sample_config "setsize_fixed") literal_match 5
    sample_start (mkPoint 0 0)
  = Ret (mkPlotState (mkPoint 1 1) "Cw" "C"
           ["C"; "w"; "!"; "[se]"; "!"; "#"; "[menudown]"; "#";
            "[menudown]"; "#"; "[menudown]"; "#"; "[menudown]"; "#";
            "[menudown]"; "#"])
  /\ "Cw" = command (get_cell sample_grid (mkPoint 0 0)).
Proof.
  assert (H : plot_area sample_grid (sample_config "setsize_fixed")
                literal_match 5 sample_start (mkPoint 0 0)
              = Ret (mkPlotState (mkPoint 1 1) "Cw" "C"
                  ["C"; "w"; "!"; "[se]"; "!"; "#"; "[menudown]"; "#";
                   "[menudown]"; "#"; "[menudown]"; "#"; "[menudown]"; "#";
                   "[menudown]"; "#"]))
    by (vm_compute; reflexivity).
  split; [exact H|].
  exact (proj1 (plot_area_state sample_grid (sample_config "setsize_fixed")
                  literal_match 5 sample_start (mkPoint 0 0) _ H)).
Defined.

Lemma plot_loop_app (grid : Grid) (buildconfig : BuildConfig)
    (re_match : string -> string -> bool) (fuel : nat)
    (plots1 plots2 : list Point) :
  forall st : PlotState,
    plot_loop grid buildconfig re_match fuel (plots1 ++ plots2) st
    = plot_loop grid buildconfig re_match fuel plots1 st
        ≫= plot_loop grid buildconfig re_match fuel plots2.
Proof.
  induction plots1 as [|pos ps IH]; intros st; simpl; [reflexivity|].
  destruct (plot_area grid buildconfig re_match fuel st pos) as [st1| |];
    simpl; [apply IH|reflexivity..].
Qed.

Lemma plot_loop_keeps_keys (grid : Grid) (buildconfig : BuildConfig)
    (re_match : string -> string -> bool) (fuel : nat) (plots : list Point) :
  forall st st' : PlotState,
    plot_loop grid buildconfig re_match fuel plots st = Ret st' ->
    exists more, pl_keys st' = pl_keys st ++ more.
Proof.
  induction plots as [|pos ps IH]; intros st st'; simpl.
  - intros [= <-]. exists []. rewrite app_nil_r. reflexivity.
  - intros H. apply res_bind_ret_inv in H. destruct H as (st1 & H1 & H2).
    apply plot_area_keeps_keys in H1. destruct H1 as (k1 & Hk1).
    apply IH in H2. destruct H2 as (k2 & Hk2).
    exists (k1 ++ k2). rewrite Hk2, Hk1, app_assoc. reflexivity.
Qed.

(** X9.  Plotting more areas only adds keys at the end: the keys [plot]
    returns for a list of positions begin with the keys it returns for
    any initial part of the list (for the empty part, with the initial
    keys of the configuration). *)
Theorem plot_extends_earlier_keys (grid : Grid) (buildconfig : BuildConfig)
    (re_match : string -> string -> bool) (fuel : nat)
    (plots1 plots2 : list Point) (cursor : Point) (keys : list string) :
  plot grid buildconfig re_match fuel (plots1 ++ plots2) cursor = Ret keys ->
  exists keys1 more,
    plot grid buildconfig re_match fuel plots1 cursor = Ret keys1
    /\ keys = keys1 ++ more.
Proof.
  unfold plot. rewrite plot_loop_app. intros H.
  apply res_bind_ret_inv in H. destruct H as (st2 & H & [= <-]).
  apply res_bind_ret_inv in H. destruct H as (st1 & H1 & H2).
  apply plot_loop_keeps_keys in H2. destruct H2 as (more & Hmore).
  exists (pl_keys st1), more. rewrite H1. split; [reflexivity|exact Hmore].
Qed.

Lemma plot_extends_earlier_keys_witness :
  plot sample_grid (sample_config "setsize_standard") literal_match 5
    ([mkPoint 0 0] ++ [mkPoint 2 2]) (mkPoint 1 0)
  = Ret ["[w]"; "C"; "w"; "!"; "[se]"; "[se]"; "!"; "#"; "[menudown]"; "#";
         "[menudown]"; "#"; "[menudown]"; "#"; "[menudown]"; "#";
         "[menudown]"; "#";
         "w"; "!"; "[nw]"; "[nw]"; "!"; "#"; "[menudown]"; "#";
         "[menudown]"; "#"; "[menudown]"; "#"; "[menudown]"; "#";
         "[menudown]"; "#"]
  /\ exists keys1 more,
       plot sample_grid (sample_config "setsize_standard") literal_match 5
         [mkPoint 0 0] (mkPoint 1 0) = Ret keys1
       /\ ["[w]"; "C"; "w"; "!"; "[se]"; "[se]"; "!"; "#"; "[menudown]"; "#";
           "[menudown]"; "#"; "[menudown]"; "#"; "[menudown]"; "#";
           "[menudown]"; "#";
           "w"; "!"; "[nw]"; "[nw]"; "!"; "#"; "[menudown]"; "#";
           "[menudown]"; "#"; "[menudown]"; "#"; "[menudown]"; "#";
           "[menudown]"; "#"]
          = keys1 ++ more.
Proof.
  assert (H : plot sample_grid (sample_config "setsize_standard") literal_match 5
                ([mkPoint 0 0] ++ [mkPoint 2 2]) (mkPoint 1 0)
              = Ret ["[w]"; "C"; "w"; "!"; "[se]"; "[se]"; "!"; "#"; "[menudown]"; "#";
                     "[menudown]"; "#"; "[menudown]"; "#"; "[menudown]"; "#";
                     "[menudown]"; "#";
                     "w"; "!"; "[nw]"; "[nw]"; "!"; "#"; "[menudown]"; "#";
                     "[menudown]"; "#"; "[menudown]"; "#"; "[menudown]"; "#";
                     "[menudown]"; "#"])
    by (vm_compute; reflexivity).
  split; [exact H|].
  exact (plot_extends_earlier_keys _ _ _ _ _ _ _ _ H).
Defined.

(** ** Splitting: what is returned, and exactly when *)

Lemma strip_bars_app (u v : string) :
  strip_bars (u +:+ v) = strip_bars u +:+ strip_bars v.
Proof.
  induction u as [|a u IH]; simpl; [reflexivity|].
  destruct (Ascii.eqb a bar); simpl; rewrite IH; reflexivity.
Qed.

Lemma string_app_assoc (u v w : string) : (u +:+ v) +:+ w = u +:+ (v +:+ w).
Proof. induction u as [|a u IH]; simpl; [reflexivity|]. rewrite IH. reflexivity. Qed.

Lemma join_app (l1 l2 : list string) : join (l1 ++ l2) = join l1 +:+ join l2.
Proof.
  unfold join. induction l1 as [|s l1 IH]; simpl; [reflexivity|].
  rewrite IH. induction s as [|a s IHs]; simpl; [reflexivity|].
  rewrite IHs. reflexivity.
Qed.

Lemma join_chars (k : string) : join (chars k) = k.
Proof.
  unfold join. induction k as [|a k IH]; simpl; [reflexivity|].
  rewrite IH. reflexivity.
Qed.

Lemma join_cons_first (a : ascii) (segs : list string) :
  join (cons_first a segs) = String a (join segs).
Proof. destruct segs; reflexivity. Qed.

Lemma split_bars_join (s : string) : join (split_bars s) = strip_bars s.
Proof.
  induction s as [|a r IH]; [reflexivity|].
  destruct r as [|b r'].
  - simpl. destruct (Ascii.eqb a bar); reflexivity.
  - change (split_bars (String a (String b r')))
      with (if Ascii.eqb a bar
            then if Ascii.eqb b bar then split_bars (String b r')
                 else EmptyString :: split_bars (String b r')
            else cons_first a (split_bars (String b r'))).
    change (strip_bars (String a (String b r')))
      with (if Ascii.eqb a bar then strip_bars (String b r')
            else String a (strip_bars (String b r'))).
    destruct (Ascii.eqb a bar); [destruct (Ascii.eqb b bar)|].
    + exact IH.
    + exact IH.
    + rewrite join_cons_first, IH. reflexivity.
Qed.

Lemma sub_char_strip_bars (c : ascii) (rep s : string) :
  strip_bars rep = strip_bars (String c EmptyString) ->
  strip_bars (sub_char c rep s) = strip_bars s.
Proof.
  intros Hrep. induction s as [|a r IH]; [reflexivity|].
  simpl sub_char. destruct (Ascii.eqb_spec a c) as [->|_].
  - rewrite strip_bars_app, Hrep, IH. simpl.
    destruct (Ascii.eqb c bar); reflexivity.
  - simpl. rewrite IH. reflexivity.
Qed.

Lemma sub_plus_bang_strip_bars (s : string) :
  strip_bars (sub_plus_bang s) = strip_bars s
  /\ forall a, strip_bars (sub_plus_bang (String a s)) = strip_bars (String a s).
Proof.
  induction s as [|b r [IH1 IH2]]; [split; [reflexivity|intros a; reflexivity]|].
  split; [apply IH2|]. intros a.
  change (sub_plus_bang (String a (String b r)))
    with (if Ascii.eqb a "+" && Ascii.eqb b "!"
          then "|+!|" +:+ sub_plus_bang r
          else String a (sub_plus_bang (String b r))).
  destruct (Ascii.eqb a "+" && Ascii.eqb b "!") eqn:E.
  - apply andb_true_iff in E. destruct E as [Ea Eb].
    apply Ascii.eqb_eq in Ea, Eb. subst a b.
    rewrite strip_bars_app, IH1. reflexivity.
  - change (strip_bars (String a (sub_plus_bang (String b r))))
      with (if Ascii.eqb a bar then strip_bars (sub_plus_bang (String b r))
            else String a (strip_bars (sub_plus_bang (String b r)))).
    rewrite IH2. reflexivity.
Qed.

Lemma cmdedit_strip_bars (s : string) : strip_bars (cmdedit s) = strip_bars s.
Proof.
  unfold cmdedit.
  rewrite !sub_char_strip_bars by reflexivity.
  rewrite (proj1 (sub_plus_bang_strip_bars _)).
  rewrite !sub_char_strip_bars by reflexivity. reflexivity.
Qed.

Lemma segments_to_codes_join (cmdsplit : list string) :
  forall codes result : list string,
    segments_to_codes cmdsplit codes = Ret result ->
    join result = join codes +:+ join cmdsplit.
Proof.
  induction cmdsplit as [|k ks IH]; intros codes result; simpl.
  - intros [= <-]. change (join []) with EmptyString.
    symmetry. apply string_app_nil.
  - destruct k as [|a k']; [discriminate|].
    destruct (_ || _); intros H; apply IH in H; rewrite H, join_app.
    + change (join (String a k' :: ks)) with (String a k' +:+ join ks).
      unfold join at 2. simpl fold_right. rewrite string_app_nil.
      apply string_app_assoc.
    + change (join (String a k' :: ks)) with (String a k' +:+ join ks).
      rewrite join_chars. apply string_app_assoc.
Qed.

(** X11.  Nothing of a command is lost or added by the split: the
    keycodes [split_keystring_into_keycodes] returns, joined in order,
    are the keystring without its ['|'] characters (so the keystring
    itself when it has none). *)
Theorem split_keystring_join (keystring : string) (codes : list string) :
  split_keystring_into_keycodes keystring = Ret codes ->
  join codes = strip_bars keystring.
Proof.
  unfold split_keystring_into_keycodes. intros H.
  apply segments_to_codes_join in H. rewrite H.
  change (join []) with EmptyString. simpl String.append.
  rewrite split_bars_join. apply cmdedit_strip_bars.
Qed.

Lemma split_keystring_join_witness :
  split_keystring_into_keycodes "d{Enter}a|b+!c^x"
  = Ret ["d"; "{Enter}"; "a"; "b"; "+"; "!"; "c"; "^"; "x"]
  /\ join ["d"; "{Enter}"; "a"; "b"; "+"; "!"; "c"; "^"; "x"]
     = strip_bars "d{Enter}a|b+!c^x".
Proof.
  assert (H : split_keystring_into_keycodes "d{Enter}a|b+!c^x"
              = Ret ["d"; "{Enter}"; "a"; "b"; "+"; "!"; "c"; "^"; "x"])
    by reflexivity.
  split; [exact H|]. exact (split_keystring_join _ _ H).
Defined.

Lemma segments_to_codes_returns (cmdsplit : list string) :
  forall codes : list string,
    EmptyString ∉ cmdsplit ->
    exists result, segments_to_codes cmdsplit codes = Ret result.
Proof.
  induction cmdsplit as [|k ks IH]; intros codes Hno; simpl; [eauto|].
  apply not_elem_of_cons in Hno. destruct Hno as [Hk Hks].
  destruct k as [|a k']; [congruence|].
  destruct (_ || _); apply IH, Hks.
Qed.

Lemma split_bars_first (a : ascii) (r : string) :
  Ascii.eqb a bar = false ->
  exists seg segs, split_bars (String a r) = String a seg :: segs.
Proof.
  intros Ha. simpl. rewrite Ha.
  destruct (split_bars r) as [|seg segs]; simpl; eauto.
Qed.

Lemma tail_cons_first (a : ascii) (segs : list string) :
  tail (cons_first a segs) = tail segs.
Proof. destruct segs; reflexivity. Qed.

(** Only the first segment of the split can be empty, unless the string
    ends with a bar. *)
Lemma split_bars_tail (s : string) :
  ends_with_bar s = false -> EmptyString ∉ tail (split_bars s).
Proof.
  induction s as [|a r IH]; [intros _; apply not_elem_of_nil|].
  destruct r as [|b r'].
  - unfold ends_with_bar. simpl. intros Ha. rewrite Ha. apply not_elem_of_nil.
  - intros He. assert (He' : ends_with_bar (String b r') = false) by exact He.
    specialize (IH He').
    change (split_bars (String a (String b r')))
      with (if Ascii.eqb a bar
            then if Ascii.eqb b bar then split_bars (String b r')
                 else EmptyString :: split_bars (String b r')
            else cons_first a (split_bars (String b r'))).
    destruct (Ascii.eqb a bar); [destruct (Ascii.eqb b bar) eqn:Hb|].
    + exact IH.
    + destruct (split_bars_first b r' Hb) as (seg & segs & Hs).
      rewrite Hs in *. cbn [tail] in *.
      apply not_elem_of_cons. split; [discriminate|exact IH].
    + rewrite tail_cons_first. exact IH.
Qed.

Lemma split_bars_no_empty (s : string) :
  s <> EmptyString -> head_is_bar s = false -> ends_with_bar s = false ->
  EmptyString ∉ split_bars s.
Proof.
  intros Hne Hh He. destruct s as [|a r]; [congruence|].
  pose proof (split_bars_tail _ He) as Ht.
  destruct (split_bars_first a r Hh) as (seg & segs & Hs).
  rewrite Hs in *. apply not_elem_of_cons. split; [discriminate|exact Ht].
Qed.

Lemma head_char_app (u v : string) (a : ascii) :
  head_char u = Some a -> head_char (u +:+ v) = Some a.
Proof. destruct u; [discriminate|exact id]. Qed.

Lemma sub_char_head (c : ascii) (rep s : string) (a : ascii) :
  head_char s = Some a ->
  a <> c \/ head_char rep = Some c ->
  head_char (sub_char c rep s) = Some a.
Proof.
  destruct s as [|x r]; [discriminate|]. intros [= ->] H. simpl sub_char.
  destruct (Ascii.eqb_spec a c) as [->|Hne].
  - destruct H as [H|H]; [congruence|]. apply head_char_app, H.
  - reflexivity.
Qed.

Lemma sub_char_head_not_bang (c : ascii) (rep s : string) :
  rep <> EmptyString -> head_char rep <> Some "!"%char ->
  head_char s <> Some "!"%char ->
  head_char (sub_char c rep s) <> Some "!"%char.
Proof.
  intros Hne Hrep Hs. destruct s as [|x r]; [discriminate|]. simpl sub_char.
  destruct (Ascii.eqb x c); [|exact Hs].
  destruct rep as [|y rep']; [congruence|exact Hrep].
Qed.

Lemma sub_plus_bang_keeps_plus (r : string) :
  head_char r <> Some "!"%char ->
  exists r', sub_plus_bang (String "+" r) = String "+" r'.
Proof.
  intros Hr. destruct r as [|b r]; [eexists; reflexivity|].
  change (sub_plus_bang (String "+" (String b r)))
    with (if Ascii.eqb "+" "+" && Ascii.eqb b "!"
          then "|+!|" +:+ sub_plus_bang r
          else String "+" (sub_plus_bang (String b r))).
  destruct (Ascii.eqb_spec b "!") as [->|_]; [simpl in Hr; congruence|].
  eexists; reflexivity.
Qed.

(** A keystring that starts with an ordinary character leaves that
    character at the start of the string handed to [re.split]. *)
Lemma cmdedit_head_kept (a : ascii) (r : string) :
  a <> "{"%char -> a <> "!"%char -> a <> "^"%char ->
  (a = "+"%char -> head_char r <> Some "!"%char) ->
  head_char (cmdedit (String a r)) = Some a.
Proof.
  intros H1 H2 H3 H4. unfold cmdedit.
  apply sub_char_head; [|left; exact H3].
  apply sub_char_head; [|left; exact H2].
  destruct (Ascii.eqb_spec a "+") as [->|Hp].
  - rewrite !sub_char_head_other by discriminate.
    destruct (sub_plus_bang_keeps_plus
                (sub_char "}" "}|" (sub_char "{" "|{" r))) as [r' ->];
      [|reflexivity].
    apply sub_char_head_not_bang; [discriminate..|].
    apply sub_char_head_not_bang; [discriminate..|]. apply H4. reflexivity.
  - assert (Hh : head_char (sub_char "}" "}|" (sub_char "{" "|{" (String a r)))
                 = Some a).
    { apply sub_char_head; [|right; reflexivity].
      apply sub_char_head; [reflexivity|left; exact H1]. }
    destruct (sub_char "}" "}|" (sub_char "{" "|{" (String a r))) as [|x t];
      [discriminate|].
    injection Hh as ->.
    destruct (sub_plus_bang_head a t Hp) as [r' ->]. reflexivity.
Qed.

(** A keystring that ends with an ordinary character leaves that
    character at the end of the string handed to [re.split]. *)
Lemma cmdedit_last_kept (s : string) (a : ascii) :
  last_char s = Some a ->
  a <> "}"%char -> a <> "!"%char -> a <> "^"%char ->
  last_char (cmdedit s) = Some a.
Proof.
  intros Hl H1 H2 H3. unfold cmdedit.
  apply sub_char_last_other; [|exact H3].
  apply sub_char_last_other; [|exact H2].
  assert (H : last_char (sub_char "}" "}|" (sub_char "{" "|{" s)) = Some a).
  { apply sub_char_last_other; [|exact H1].
    destruct (Ascii.eqb_spec a "{") as [->|Hb].
    - apply sub_char_last_same; [exact Hl|reflexivity].
    - apply sub_char_last_other; [exact Hl|exact Hb]. }
  destruct (sub_plus_bang_last _ _ _ (Nat.le_refl _) H) as [H'|[H' _]];
    [exact H'|contradiction].
Qed.

Lemma last_char_some (a : ascii) (r : string) :
  exists x, last_char (String a r) = Some x.
Proof.
  revert a. induction r as [|b r IH]; intros a; [eexists; reflexivity|].
  destruct (IH b) as [x Hx]. exists x. exact Hx.
Qed.

Lemma head_is_bar_head_char (s : string) (a : ascii) :
  head_char s = Some a -> head_is_bar s = Ascii.eqb a bar.
Proof. destruct s; [discriminate|]. intros [= ->]. reflexivity. Qed.

Lemma starts_with_one (c a : ascii) (r : string) :
  starts_with (String c EmptyString) (String a r) = Ascii.eqb c a.
Proof. simpl. apply andb_true_r. Qed.

(** A bar at either end of the keystring stays there. *)
Lemma split_keystring_raises_on_bar (keystring : string) :
  head_is_bar keystring = true \/ ends_with_bar keystring = true ->
  split_keystring_into_keycodes keystring = Raise IndexError.
Proof.
  intros H. unfold split_keystring_into_keycodes.
  apply segments_to_codes_empty_segment. destruct H as [H|H].
  - destruct keystring as [|a r]; [discriminate|].
    simpl in H. apply Ascii.eqb_eq in H. subst a.
    assert (Hh : head_char (cmdedit (String bar r)) = Some bar)
      by (apply cmdedit_head_kept; discriminate).
    destruct (split_bars_head (cmdedit (String bar r))) as [segs ->].
    + rewrite (head_is_bar_head_char _ _ Hh). reflexivity.
    + apply list_elem_of_here.
  - unfold ends_with_bar in H.
    destruct (last_char keystring) as [a|] eqn:Hl; [|discriminate].
    apply Ascii.eqb_eq in H. subst a.
    assert (Hc : last_char (cmdedit keystring) = Some bar)
      by (apply cmdedit_last_kept; [exact Hl|discriminate..]).
    destruct (split_bars_last _ Hc) as (seg & segs & ->).
    apply elem_of_cons. right. apply elem_of_app. right. apply list_elem_of_here.
Qed.

(** X10.  Exactly the keystrings that are empty, or have a special token
    (an opening brace, ['!'], ['^'] or ['+!'] in front; a closing brace,
    ['!'] or ['^'] behind) or a ['|'] at either end, make
    [split_keystring_into_keycodes] raise the out-of-range error; every
    other keystring is split into a list of keycodes. *)
Theorem split_keystring_raises_exactly (keystring : string) :
  if unsplittable keystring
  then split_keystring_into_keycodes keystring = Raise IndexError
  else exists codes, split_keystring_into_keycodes keystring = Ret codes.
Proof.
  unfold unsplittable.
  destruct (String.eqb_spec keystring EmptyString) as [->|Hne]; [reflexivity|].
  destruct (begins_special keystring) eqn:Hb.
  { apply split_keystring_raises. auto. }
  destruct (head_is_bar keystring) eqn:Hh.
  { apply split_keystring_raises_on_bar. auto. }
  destruct (ends_special keystring) eqn:He.
  { apply split_keystring_raises. auto. }
  destruct (ends_with_bar keystring) eqn:Hw.
  { apply split_keystring_raises_on_bar. auto. }
  simpl. unfold split_keystring_into_keycodes.
  apply segments_to_codes_returns.
  destruct keystring as [|a r]; [congruence|].
  unfold begins_special in Hb. rewrite !starts_with_one in Hb.
  apply orb_false_iff in Hb. destruct Hb as [Hb Hpb].
  apply orb_false_iff in Hb. destruct Hb as [Hb H3].
  apply orb_false_iff in Hb. destruct Hb as [H1 H2].
  apply Ascii.eqb_neq in H1, H2, H3.
  assert (Hhead : head_char (cmdedit (String a r)) = Some a).
  { apply cmdedit_head_kept; try congruence.
    intros -> Hr. destruct r as [|b r']; [discriminate|].
    injection Hr as ->. discriminate. }
  destruct (last_char_some a r) as [x Hx].
  unfold ends_special in He. unfold ends_with_bar in Hw. rewrite Hx in He, Hw.
  apply orb_false_iff in He. destruct He as [He H6].
  apply orb_false_iff in He. destruct He as [H4 H5].
  apply Ascii.eqb_neq in H4, H5, H6.
  assert (Hlast : last_char (cmdedit (String a r)) = Some x)
    by (apply cmdedit_last_kept; assumption).
  apply split_bars_no_empty.
  - intros E. rewrite E in Hhead. discriminate.
  - rewrite (head_is_bar_head_char _ _ Hhead). exact Hh.
  - unfold ends_with_bar. rewrite Hlast. exact Hw.
Qed.

Example unsplittable_examples :
  map unsplittable ["d"; "+a"; "a{"; "{Enter}"; "a!"; "|a"; "+!a"; "a+"]
  = [false; false; false; true; true; true; true; false].
Proof. reflexivity. Qed.

(** ** Conversion: modes and the module-level dictionary *)

Lemma key_table_tokens_not_empty (k token : string) :
  table_token key_table k = Some token -> token <> EmptyString.
Proof.
  unfold table_token. intros E.
  destruct (find _ key_table) as [[k' v]|] eqn:F; [|discriminate].
  apply find_some in F. destruct F as [Hin _]. simpl in E.
  injection E as ->. simpl in Hin. intros ->.
  repeat (destruct Hin as [Hin|Hin]; [discriminate|]). exact Hin.
Qed.

Lemma translate_keycode_key_any (g : gmap string value) (k : string) :
  g !! "key" = Some (VTable (list_to_map key_table)) ->
  translate_keycode k "key" g = (Ret (key_token k), g).
Proof.
  intros Hg. unfold translate_keycode, key_token.
  rewrite Hg, list_to_map_table_token.
  destruct (table_token key_table k) as [token|] eqn:E; [|reflexivity].
  simpl. destruct (String.eqb_spec token EmptyString) as [->|]; [|reflexivity].
  exfalso. exact (key_table_tokens_not_empty _ _ E eq_refl).
Qed.

Lemma translate_keycodes_key_any (g : gmap string value) (keys : list string) :
  g !! "key" = Some (VTable (list_to_map key_table)) ->
  translate_keycodes keys "key" g = (Ret (map key_token keys), g).
Proof.
  intros Hg. induction keys as [|k ks IH]; [reflexivity|].
  simpl. unfold py_bind. rewrite translate_keycode_key_any by exact Hg.
  rewrite IH. reflexivity.
Qed.

(** X12.  A conversion in key mode cannot fail and touches nothing: as
    long as the dictionary still holds the key-mode table, whatever else
    it holds, the result is the tokens of the keycodes joined in order
    (a keycode the table lacks stands for itself); the keybinding file,
    the title and the dictionary play no part and the dictionary is left
    as it was. *)
Theorem convert_keys_key_mode (data : string) (rnd : N) (title : option string)
    (keys : list string) (g : gmap string value) :
  g !! "key" = Some (VTable (list_to_map key_table)) ->
  convert_keys data rnd keys "key" title g
  = (Ret (join (map key_token keys)), g).
Proof.
  intros Hg. unfold convert_keys, py_bind.
  rewrite translate_keycodes_key_any by exact Hg. reflexivity.
Qed.

Lemma convert_keys_key_mode_witness :
  snd (convert_keys interface_sample 7 ["!"] "macro" (Some "t") KEY_LIST) !! "key"
  = Some (VTable (list_to_map key_table))
  /\ convert_keys EmptyString 0 ["d"; "[+ne]"; "{F5}"; "!"; "^"] "key" None
       (snd (convert_keys interface_sample 7 ["!"] "macro" (Some "t") KEY_LIST))
     = (Ret "d+9{F5}{Enter}{Esc}",
        snd (convert_keys interface_sample 7 ["!"] "macro" (Some "t") KEY_LIST)).
Proof.
  assert (H : snd (convert_keys interface_sample 7 ["!"] "macro" (Some "t") KEY_LIST)
              !! "key"
              = Some (VTable (list_to_map key_table)))
    by (vm_compute; reflexivity).
  split; [exact H|].
  exact (convert_keys_key_mode EmptyString 0 None
           ["d"; "[+ne]"; "{F5}"; "!"; "^"] _ H).
Defined.

Lemma py_for_preserves {A : Type} (P : gmap string value -> Prop)
    (body : A -> Py unit) (l : list A) :
  (forall x g, P g -> P (snd (body x g))) ->
  forall g, P g -> P (snd (py_for l body g)).
Proof.
  intros Hbody. induction l as [|x l IH]; intros g Hg; simpl; [exact Hg|].
  unfold py_bind. pose proof (Hbody x g Hg) as Hx.
  destruct (body x g) as [[[]| |] g1]; simpl in *; auto.
Qed.

Lemma bind_key_keeps_tables (bind k : string) (g : gmap string value)
    (m : string) (t : gmap string string) :
  g !! m = Some (VTable t) ->
  snd (bind_key bind k g) !! m = Some (VTable t).
Proof.
  intros Hm. unfold bind_key.
  destruct (String.eqb k EmptyString); [exact Hm|].
  destruct (g !! k) as [[t'|l]|] eqn:E; simpl; [exact Hm|..];
    (rewrite lookup_insert_ne; [exact Hm|intros ->; congruence]).
Qed.

Lemma parse_interface_txt_keeps_tables (data : string) (g : gmap string value)
    (m : string) (t : gmap string string) :
  g !! m = Some (VTable t) ->
  snd (parse_interface_txt data g) !! m = Some (VTable t).
Proof.
  intros Hm. unfold parse_interface_txt, py_bind.
  assert (H : snd (py_for (groups_of data) bind_group g) !! m = Some (VTable t)).
  { apply (py_for_preserves (fun g => g !! m = Some (VTable t))); [|exact Hm].
    intros kb g0 Hg0. unfold bind_group.
    destruct kb as [|kb0 rest]; [exact Hg0|].
    destruct kb0 as [|a kb0]; [destruct rest; [exact Hg0|]|];
      (apply (py_for_preserves (fun g => g !! m = Some (VTable t))); [|exact Hg0];
       intros k g1 Hg1; apply bind_key_keeps_tables, Hg1). }
  destruct (py_for (groups_of data) bind_group g) as [[[]| |] g1]; exact H.
Qed.

Lemma translate_keycodes_store (keys : list string) (mode : string)
    (g : gmap string value) :
  snd (translate_keycodes keys mode g) = g.
Proof.
  induction keys as [|k ks IH]; [reflexivity|].
  simpl. unfold py_bind, translate_keycode.
  destruct (g !! mode) as [[t|l]|]; [|reflexivity..].
  destruct (t !! k);
    (destruct (translate_keycodes ks mode g) as [[ts| |] g1]; simpl in *;
     subst; reflexivity).
Qed.

(** X13.  No conversion ever replaces or removes a translation table:
    whatever the mode, the keycodes and the keybinding file are, and
    whether the conversion returns or raises, an entry of the dictionary
    that holds a table holds the same table afterwards. *)
Theorem convert_keys_keeps_tables (data : string) (rnd : N)
    (keys : list string) (mode : string) (title : option string)
    (g : gmap string value) (m : string) (t : gmap string string) :
  g !! m = Some (VTable t) ->
  snd (convert_keys data rnd keys mode title g) !! m = Some (VTable t).
Proof.
  intros Hm. unfold convert_keys, py_bind.
  pose proof (translate_keycodes_store keys mode g) as Hs.
  destruct (translate_keycodes keys mode g) as [[ts| |] g1]; simpl in Hs; subst g1;
    [|exact Hm..].
  destruct (String.eqb mode "macro").
  - unfold convert_to_macro, py_bind.
    pose proof (parse_interface_txt_keeps_tables data g m t Hm) as Hp.
    destruct (parse_interface_txt data g) as [[kb| |] g1]; simpl in Hp; [|exact Hp..].
    destruct (macro_groups kb ts _) as [out| |]; exact Hp.
  - destruct (String.eqb mode "key"); exact Hm.
Qed.

Lemma convert_keys_keeps_tables_witness :
  KEY_LIST !! "macro" = Some (VTable (list_to_map macro_table))
  /\ snd (convert_keys interface_sample 7 ["!"; "[n]"] "macro" None KEY_LIST)
       !! "macro"
     = Some (VTable (list_to_map macro_table)).
Proof.
  split; [exact KEY_LIST_macro|].
  exact (convert_keys_keeps_tables interface_sample 7 ["!"; "[n]"] "macro" None
           KEY_LIST "macro" _ KEY_LIST_macro).
Defined.



(** ** The keybinding file *)

Lemma bind_key_lines (bind k : string) (g : gmap string value) (k' : string) :
  modes_only g -> k <> "key" -> k <> "macro" ->
  lines_of (snd (bind_key bind k g)) k'
  = lines_of g k'
    ++ (if decide (k = k' /\ k <> EmptyString)
        then [String tab (String tab bind)] else []).
Proof.
  intros Hg Hk Hm. unfold bind_key.
  destruct (String.eqb_spec k EmptyString) as [->|Hne].
  { simpl. destruct (decide _) as [[_ H]|_]; [congruence|].
    rewrite app_nil_r. reflexivity. }
  destruct (g !! k) as [[t|l]|] eqn:E.
  - destruct (Hg _ _ E); contradiction.
  - simpl. unfold lines_of. destruct (decide (k = k')) as [<-|Hkk].
    + rewrite lookup_insert_eq, E.
      destruct (decide _) as [_|H]; [reflexivity|tauto].
    + rewrite lookup_insert_ne by exact Hkk.
      destruct (decide _) as [[H _]|_]; [contradiction|].
      rewrite app_nil_r. reflexivity.
  - simpl. unfold lines_of. destruct (decide (k = k')) as [<-|Hkk].
    + rewrite lookup_insert_eq, E.
      destruct (decide _) as [_|H]; [reflexivity|tauto].
    + rewrite lookup_insert_ne by exact Hkk.
      destruct (decide _) as [[H _]|_]; [contradiction|].
      rewrite app_nil_r. reflexivity.
Qed.

Lemma py_for_bind_key_lines (bind : string) (keys : list string) (k' : string) :
  forall g : gmap string value,
    modes_only g -> "key" ∉ keys -> "macro" ∉ keys ->
    lines_of (snd (py_for keys (bind_key bind) g)) k'
    = lines_of g k'
      ++ replicate
           (length (filter (fun x => x = k')
                           (filter (fun x => x <> EmptyString) keys)))
           (String tab (String tab bind)).
Proof.
  induction keys as [|k keys IH]; intros g Hg Hk Hm.
  - simpl. rewrite app_nil_r. reflexivity.
  - apply not_elem_of_cons in Hk. destruct Hk as [Hk Hks].
    apply not_elem_of_cons in Hm. destruct Hm as [Hm Hms].
    assert (Hk' : k <> "key") by congruence.
    assert (Hm' : k <> "macro") by congruence.
    pose proof (bind_key_lines bind k g k' Hg Hk' Hm') as Hl.
    destruct (bind_key_spec bind k g Hg Hk' Hm') as (g1 & H1 & Hg1 & _).
    simpl. unfold py_bind. rewrite H1 in *. simpl in Hl.
    rewrite (IH g1 Hg1 Hks Hms), Hl, <- app_assoc. f_equal.
    rewrite filter_cons.
    destruct (decide (k <> EmptyString)) as [Hne|He].
    + rewrite filter_cons. destruct (decide (k = k')) as [->|Hkk].
      * destruct (decide _) as [_|H]; [reflexivity|tauto].
      * destruct (decide _) as [[H _]|_]; [contradiction|reflexivity].
    + destruct (decide _) as [[_ H]|_]; [contradiction|reflexivity].
Qed.

Lemma bind_group_lines (kb : list string) (g : gmap string value) (k' : string) :
  modes_only g -> kb <> [] ->
  "key" ∉ group_keys kb -> "macro" ∉ group_keys kb ->
  lines_of (snd (bind_group kb g)) k' = lines_of g k' ++ group_lines k' kb.
Proof.
  intros Hg Hkb Hk Hm.
  destruct kb as [|kb0 rest]; [contradiction|].
  unfold group_lines, bind_group.
  destruct kb0 as [|a kb0].
  - destruct rest as [|k1 rest].
    + simpl. rewrite app_nil_r. reflexivity.
    + apply py_for_bind_key_lines; [exact Hg|..];
        apply not_in_filter_nonempty; [discriminate|exact Hk|discriminate|exact Hm].
  - apply py_for_bind_key_lines; [exact Hg|..];
      apply not_in_filter_nonempty; [discriminate|exact Hk|discriminate|exact Hm].
Qed.

Lemma py_for_bind_group_lines (groups : list (list string)) (k' : string) :
  forall g : gmap string value,
    modes_only g -> Forall (fun kb => kb <> []) groups ->
    "key" ∉ concat (map group_keys groups) ->
    "macro" ∉ concat (map group_keys groups) ->
    lines_of (snd (py_for groups bind_group g)) k'
    = lines_of g k' ++ concat (map (group_lines k') groups).
Proof.
  induction groups as [|kb groups IH]; intros g Hg Hne Hk Hm.
  - simpl. rewrite app_nil_r. reflexivity.
  - simpl in Hk, Hm. apply not_elem_of_app in Hk, Hm.
    destruct Hk as [Hk Hks], Hm as [Hm Hms].
    apply Forall_cons in Hne. destruct Hne as [Hkb Hne].
    pose proof (bind_group_lines kb g k' Hg Hkb Hk Hm) as Hl.
    destruct (bind_group_spec kb g Hg Hkb Hk Hm) as (g1 & H1 & Hg1 & _).
    simpl. unfold py_bind. rewrite H1 in *. simpl in Hl.
    rewrite (IH g1 Hg1 Hne Hks Hms), Hl, <- app_assoc. reflexivity.
Qed.

Lemma groups_of_not_nil (data : string) :
  Forall (fun kb => kb <> []) (groups_of data).
Proof.
  unfold groups_of. apply Forall_forall. intros kb Hin.
  apply list_elem_of_In, in_map_iff in Hin. destruct Hin as (piece & <- & _).
  apply split_literal_not_nil.
Qed.

(** What [parse_interface_txt] does to a dictionary whose only tables are
    the mode tables, for a file that binds no mode name. *)
Lemma parse_interface_txt_lines (data : string) (g : gmap string value) :
  modes_only g ->
  "key" ∉ bound_keys data -> "macro" ∉ bound_keys data ->
  exists g',
    parse_interface_txt data g = (Ret g', g')
    /\ modes_only g'
    /\ (forall k, g' !! k = None <-> g !! k = None /\ k ∉ bound_keys data)
    /\ forall k, lines_of g' k = lines_of g k ++ bindings_of data k.
Proof.
  intros Hg Hk Hm. unfold bound_keys in *.
  destruct (py_for_bind_group (groups_of data) g Hg (groups_of_not_nil data) Hk Hm)
    as (g' & H & Hg' & Hn).
  exists g'. unfold parse_interface_txt, py_bind. rewrite H.
  split; [reflexivity|]. split; [exact Hg'|]. split; [exact Hn|].
  intros k.
  pose proof (py_for_bind_group_lines (groups_of data) k g Hg
                (groups_of_not_nil data) Hk Hm) as Hl.
  rewrite H in Hl. exact Hl.
Qed.

(** X15.  [parse_interface_txt] adds to the dictionary it is given: for
    a file that binds no mode name it returns, and the lines held for
    every key afterwards are the lines held before followed by the action
    names the file binds to the key, tab-indented, in the order of the
    file, once per binding line; so a key bound in several groups gets
    all their names, and parsing the file again doubles them. *)
Theorem parse_interface_txt_appends (data : string) (g : gmap string value) :
  modes_only g ->
  "key" ∉ bound_keys data -> "macro" ∉ bound_keys data ->
  exists g',
    parse_interface_txt data g = (Ret g', g')
    /\ forall k, lines_of g' k = lines_of g k ++ bindings_of data k.
Proof.
  intros Hg Hk Hm.
  destruct (parse_interface_txt_lines data g Hg Hk Hm) as (g' & H & _ & _ & Hl).
  exists g'. split; assumption.
Qed.

Example bindings_of_two_groups :
  bindings_of interface_two_groups "0:Enter"
  = [String tab (String tab "SELECT");
     String tab (String tab "CLOSE_MEGA_ANNOUNCEMENT")]
  /\ bound_keys interface_two_groups = ["0:Enter"; "0:Escape"; "0:Enter"; "^"].
Proof. vm_compute. split; reflexivity. Qed.

Lemma parse_interface_txt_appends_witness :
  (modes_only KEY_LIST
   /\ ("key" ∉ bound_keys interface_two_groups)
   /\ ("macro" ∉ bound_keys interface_two_groups))
  /\ exists g',
       parse_interface_txt interface_two_groups KEY_LIST = (Ret g', g')
       /\ forall k, lines_of g' k
                    = lines_of KEY_LIST k ++ bindings_of interface_two_groups k.
Proof.
  assert (H1 : "key" ∉ bound_keys interface_two_groups)
    by (refine (bool_decide_unpack _ _); vm_compute; exact I).
  assert (H2 : "macro" ∉ bound_keys interface_two_groups)
    by (refine (bool_decide_unpack _ _); vm_compute; exact I).
  split; [split; [exact modes_only_KEY_LIST|split; assumption]|].
  exact (parse_interface_txt_appends interface_two_groups KEY_LIST
           modes_only_KEY_LIST H1 H2).
Defined.




Example convert_to_macro_two_groups :
  fst (convert_to_macro interface_two_groups 7 ["0:Enter"; "^"] None KEY_LIST)
  = Ret ["@@@qf7";
         String tab (String tab "SELECT");
         String tab (String tab "CLOSE_MEGA_ANNOUNCEMENT");
         String tab "End of group";
         String tab (String tab "LEAVESCREEN");
         String tab "End of group";
         "End of macro"].
Proof. vm_compute. reflexivity. Qed.

Lemma closes_on_line_end (r : string) :
  all_chars identifier_char r = true -> closes_on_line (r +:+ "]") = true.
Proof.
  induction r as [|a r IH]; [reflexivity|].
  intros H. apply andb_true_iff in H. destruct H as [Ha Hr].
  apply andb_true_iff in Ha. destruct Ha as [H1 H2].
  apply negb_true_iff in H1, H2.
  change (closes_on_line (String a r +:+ "]"))
    with (if Ascii.eqb a "]" then true
          else if Ascii.eqb a newline then false
          else closes_on_line (r +:+ "]")).
  rewrite H1, H2. apply IH, Hr.
Qed.

Lemma sub_key_body_end (r : string) :
  all_chars identifier_char r = true -> sub_key KBody (r +:+ "]") = r.
Proof.
  induction r as [|a r IH]; [reflexivity|].
  intros H. apply andb_true_iff in H. destruct H as [Ha Hr].
  apply andb_true_iff in Ha. destruct Ha as [H1 _]. apply negb_true_iff in H1.
  change (sub_key KBody (String a r +:+ "]"))
    with (if Ascii.eqb a "]" then sub_key KScan (r +:+ "]")
          else String a (sub_key KBody (r +:+ "]"))).
  rewrite H1, (IH Hr). reflexivity.
Qed.

Lemma sub_key_wrapped (p1 p2 p3 : ascii) (d : ascii) (r : string) :
  (p1, p2, p3) = ("K", "E", "Y")%char \/ (p1, p2, p3) = ("S", "Y", "M")%char ->
  all_chars identifier_char (String d r) = true ->
  sub_key KScan
    (String "[" (String p1 (String p2 (String p3 (String ":" (String d (r +:+ "]")))))))
  = String d r.
Proof.
  intros Hp H. apply andb_true_iff in H. destruct H as [Hd Hr].
  apply andb_true_iff in Hd. destruct Hd as [_ Hd].
  set (s := String "[" (String p1 (String p2 (String p3
              (String ":" (String d (r +:+ "]"))))))).
  assert (Hm : key_match_here s = true).
  { subst s.
    change (key_match_here _)
      with ((starts_with "[KEY:"
               (String "[" (String p1 (String p2 (String p3
                  (String ":" (String d (r +:+ "]")))))))
             || starts_with "[SYM:"
                  (String "[" (String p1 (String p2 (String p3
                     (String ":" (String d (r +:+ "]"))))))))
            && negb (Ascii.eqb d newline) && closes_on_line (r +:+ "]")).
    rewrite Hd, (closes_on_line_end r Hr).
    destruct Hp as [[= -> -> ->]|[= -> -> ->]]; reflexivity. }
  change (sub_key KScan s)
    with (if key_match_here s then String d (sub_key KBody (r +:+ "]"))
          else String "[" (sub_key KScan
                 (String p1 (String p2 (String p3
                    (String ":" (String d (r +:+ "]")))))))).
  rewrite Hm, (sub_key_body_end r Hr). reflexivity.
Qed.

(** X17.  The identifier of a key line is what stands between the
    markup: for a non-empty identifier without closing bracket and line
    break, the key read from the line [[KEY:identifier]] or
    [[SYM:identifier]] is the identifier. *)
Theorem sub_key_extracts_identifier (id : string) :
  id <> EmptyString ->
  all_chars identifier_char id = true ->
  sub_key KScan ("[KEY:" +:+ id +:+ "]") = id
  /\ sub_key KScan ("[SYM:" +:+ id +:+ "]") = id.
Proof.
  intros Hne Hid. destruct id as [|d r]; [congruence|].
  split; apply sub_key_wrapped; auto.
Qed.

Lemma sub_key_extracts_identifier_witness :
  "0:Numpad Enter" <> EmptyString
  /\ all_chars identifier_char "0:Numpad Enter" = true
  /\ sub_key KScan "[SYM:0:Numpad Enter]" = "0:Numpad Enter".
Proof.
  assert (H1 : "0:Numpad Enter" <> EmptyString) by discriminate.
  assert (H2 : all_chars identifier_char "0:Numpad Enter" = true) by reflexivity.
  split; [exact H1|]. split; [exact H2|].
  exact (proj2 (sub_key_extracts_identifier "0:Numpad Enter" H1 H2)).
Defined.

Lemma after_word_colon (w rest : string) :
  all_chars is_word w = true -> after_word (w +:+ String ":" rest) = String ":" rest.
Proof.
  induction w as [|a w IH]; [reflexivity|].
  intros H. apply andb_true_iff in H. destruct H as [Ha Hw].
  change (after_word (String a w +:+ String ":" rest))
    with (if is_word a then after_word (w +:+ String ":" rest)
          else String a (w +:+ String ":" rest)).
  rewrite Ha. apply IH, Hw.
Qed.

Lemma sub_bind_rest (rest : string) :
  all_chars line_char rest = true -> sub_bind BRest rest = EmptyString.
Proof.
  induction rest as [|a r IH]; [reflexivity|].
  intros H. apply andb_true_iff in H. destruct H as [Ha Hr].
  apply negb_true_iff in Ha.
  change (sub_bind BRest (String a r))
    with (if Ascii.eqb a newline then String a (sub_bind BScan r)
          else sub_bind BRest r).
  rewrite Ha. apply IH, Hr.
Qed.

Lemma sub_bind_word (w rest : string) :
  all_chars is_word w = true ->
  sub_bind BWord (w +:+ String ":" rest) = w +:+ sub_bind BRest rest.
Proof.
  induction w as [|a w IH]; [reflexivity|].
  intros H. apply andb_true_iff in H. destruct H as [Ha Hw].
  change (sub_bind BWord (String a w +:+ String ":" rest))
    with (if is_word a then String a (sub_bind BWord (w +:+ String ":" rest))
          else sub_bind BRest (w +:+ String ":" rest)).
  rewrite Ha, (IH Hw). reflexivity.
Qed.

(** X18.  The action name of a group is what its header has before the
    first colon: for a header made of a non-empty run of letters, digits
    and underscores, a colon, and at least one more character on the
    line, the name read is the run. *)
Theorem sub_bind_extracts_name (w rest : string) :
  w <> EmptyString -> all_chars is_word w = true ->
  rest <> EmptyString -> all_chars line_char rest = true ->
  sub_bind BScan (w +:+ String ":" rest) = w.
Proof.
  intros Hw Hword Hr Hrest.
  destruct w as [|a w]; [congruence|]. destruct rest as [|d rest]; [congruence|].
  pose proof Hword as Hword'.
  apply andb_true_iff in Hword. destruct Hword as [Ha Hw'].
  pose proof Hrest as Hrest'.
  apply andb_true_iff in Hrest. destruct Hrest as [Hd _].
  assert (Hm : bind_match_here (String a w +:+ String ":" (String d rest)) = true).
  { change (bind_match_here (String a w +:+ String ":" (String d rest)))
      with (is_word a
            && match after_word (String a w +:+ String ":" (String d rest)) with
               | String c (String d _) =>
                 Ascii.eqb c ":" && negb (Ascii.eqb d newline)
               | _ => false
               end).
    rewrite Ha, (after_word_colon (String a w) (String d rest) Hword').
    exact Hd. }
  change (sub_bind BScan (String a w +:+ String ":" (String d rest)))
    with (if bind_match_here (String a w +:+ String ":" (String d rest))
          then String a (sub_bind BWord (w +:+ String ":" (String d rest)))
          else String a (sub_bind BScan (w +:+ String ":" (String d rest)))).
  rewrite Hm, (sub_bind_word w (String d rest) Hw'), (sub_bind_rest _ Hrest').
  rewrite string_app_nil. reflexivity.
Qed.

Lemma sub_bind_extracts_name_witness :
  ("CURSOR_UP_FAST" <> EmptyString /\ all_chars is_word "CURSOR_UP_FAST" = true)
  /\ ("REPEAT_FAST]" <> EmptyString /\ all_chars line_char "REPEAT_FAST]" = true)
  /\ sub_bind BScan "CURSOR_UP_FAST:REPEAT_FAST]" = "CURSOR_UP_FAST".
Proof.
  assert (H1 : "CURSOR_UP_FAST" <> EmptyString) by discriminate.
  assert (H2 : all_chars is_word "CURSOR_UP_FAST" = true) by reflexivity.
  assert (H3 : "REPEAT_FAST]" <> EmptyString) by discriminate.
  assert (H4 : all_chars line_char "REPEAT_FAST]" = true) by reflexivity.
  split; [split; assumption|]. split; [split; assumption|].
  exact (sub_bind_extracts_name "CURSOR_UP_FAST" "REPEAT_FAST]" H1 H2 H3 H4).
Defined.

(** ** Material keys, submenus and strategy names *)




Lemma submenu_body_match (re_match : string -> string -> bool)
    (c : ascii) (rest : string) (ms ms' : MenuState) (k : string) :
  re_match k (String c rest) = true ->
  submenu_body re_match (String c rest) ms k = Ret ms' ->
  mn_last_submenu ms' = String c EmptyString
  /\ (mn_last_submenu ms = String c EmptyString -> menu_slots_empty ms').
Proof.
  intros Hk. unfold submenu_body. rewrite Hk.
  destruct (String.eqb_spec (mn_last_submenu ms) EmptyString) as [E|_].
  - intros [= <-]. simpl. split; [reflexivity|]. rewrite E. discriminate.
  - destruct (String.eqb_spec (mn_last_submenu ms) (String c EmptyString)) as [E|E];
      simpl; intros [= <-]; simpl.
    + split; [exact E|]. intros _. unfold menu_slots_empty. simpl. split.
      * rewrite lookup_insert_ne by discriminate. apply lookup_insert_eq.
      * apply lookup_insert_eq.
    + split; [reflexivity|]. contradiction.
Qed.

Lemma submenu_loop_same_submenu (re_match : string -> string -> bool)
    (c : ascii) (rest : string) (submenukeys : list string) :
  forall ms ms' : MenuState,
    mn_last_submenu ms = String c EmptyString ->
    submenu_loop re_match (String c rest) submenukeys ms = Ret ms' ->
    mn_last_submenu ms' = String c EmptyString
    /\ (menu_slots_empty ms
        \/ matching_keys re_match (String c rest) submenukeys <> [] ->
        menu_slots_empty ms').
Proof.
  induction submenukeys as [|k ks IH]; intros ms ms' Hl; simpl.
  - intros [= <-]. split; [exact Hl|]. intros [H|H]; [exact H|contradiction].
  - intros H. apply res_bind_ret_inv in H. destruct H as (ms1 & H1 & H2).
    destruct (re_match k (String c rest)) eqn:Hk.
    + destruct (submenu_body_match _ _ _ _ _ _ Hk H1) as [Hl1 He1].
      destruct (IH ms1 ms' Hl1 H2) as [Hl' He']. split; [exact Hl'|].
      intros _. apply He'. left. apply He1, Hl.
    + unfold submenu_body in H1. rewrite Hk in H1. injection H1 as <-.
      apply IH; assumption.
Qed.

(** X20.  Two submenu patterns that match the same command cancel the
    submenu keys: when at least two patterns of the list match, the loop
    leaves both the enter-submenu slot and the exit-menu slot empty,
    whatever submenu was active before, while it records the command's
    first character as the active submenu. *)
Theorem submenu_two_matches_cancel (re_match : string -> string -> bool)
    (command : string) (submenukeys : list string) (ms ms' : MenuState) :
  (2 <= length (matching_keys re_match command submenukeys))%nat ->
  submenu_loop re_match command submenukeys ms = Ret ms' ->
  menu_slots_empty ms'
  /\ exists c rest,
       command = String c rest /\ mn_last_submenu ms' = String c EmptyString.
Proof.
  revert ms. induction submenukeys as [|k ks IH]; intros ms Hlen H.
  { simpl in Hlen. lia. }
  simpl in H. apply res_bind_ret_inv in H. destruct H as (ms1 & H1 & H2).
  assert (Hf : matching_keys re_match command (k :: ks)
               = if re_match k command
                 then k :: matching_keys re_match command ks
                 else matching_keys re_match command ks) by reflexivity.
  rewrite Hf in Hlen. clear Hf.
  destruct (re_match k command) eqn:Hk.
  - destruct command as [|c rest].
    { unfold submenu_body in H1. rewrite Hk in H1. discriminate. }
    destruct (submenu_body_match _ _ _ _ _ _ Hk H1) as [Hl1 _].
    destruct (submenu_loop_same_submenu _ _ _ _ _ _ Hl1 H2) as [Hl' He'].
    split; [|eauto]. apply He'. right.
    intros E. rewrite E in Hlen. simpl in Hlen. lia.
  - unfold submenu_body in H1. rewrite Hk in H1. injection H1 as <-.
    apply (IH ms); assumption.
Qed.

Lemma submenu_two_matches_cancel_witness :
  (2 <= length (matching_keys literal_match "Cw" ["C"; "b"; "Cw"]))%nat
  /\ submenu_loop literal_match "Cw" ["C"; "b"; "Cw"]
       (mkMenuState ∅ "b" None)
     = Ret (mkMenuState
              (<["exitmenu" := []]> (<["menu" := []]>
                 (<["menu" := ["C"]]> (<["exitmenu" := ["^"]]> ∅))))
              "C" (Some "w"))
  /\ menu_slots_empty
       (mkMenuState
          (<["exitmenu" := []]> (<["menu" := []]>
             (<["menu" := ["C"]]> (<["exitmenu" := ["^"]]> ∅))))
          "C" (Some "w")).
Proof.
  assert (H1 : (2 <= length (matching_keys literal_match "Cw" ["C"; "b"; "Cw"]))%nat)
    by (vm_compute; lia).
  assert (H2 : submenu_loop literal_match "Cw" ["C"; "b"; "Cw"]
                 (mkMenuState ∅ "b" None)
               = Ret (mkMenuState
                        (<["exitmenu" := []]> (<["menu" := []]>
                           (<["menu" := ["C"]]> (<["exitmenu" := ["^"]]> ∅))))
                        "C" (Some "w")))
    by reflexivity.
  split; [exact H1|]. split; [exact H2|].
  exact (proj1 (submenu_two_matches_cancel literal_match "Cw" ["C"; "b"; "Cw"]
                  _ _ H1 H2)).
Defined.


